(** * Quant-Finance / quantopian.py : a shallow embedding of [RollingOLS]
    and [get_pricing].

    Numbers are exact rationals [Q]; the ordinary-least-squares solver
    that [sm.OLS(...).fit()] provides is modelled as its default
    pseudo-inverse solution computed exactly.  Time stamps are
    integers [Z]. *)

From Stdlib Require Import QArith Qfield Ascii String List Bool Arith ZArith Lia.
Import ListNotations.

Open Scope Q_scope.
Open Scope string_scope.
Open Scope list_scope.

(* ------------------------------------------------------------------ *)
(** ** Series and sums *)

(** A pandas Series: (time stamp, value) pairs in index order. *)
Definition Series := list (Z * Q).

Definition sumQ (l : list Q) : Q := fold_right Qplus 0 l.

(** Python positional slicing [s[a:b]] (a <= b, clamped to the list). *)
Definition slice {A} (l : list A) (a b : nat) : list A :=
  firstn (b - a) (skipn a l).

(* ------------------------------------------------------------------ *)
(** ** statsmodels: [add_constant] and [OLS(...).fit().params] *)

(** [safe_is_const] of [statsmodels.tsa.tsatools.add_trend]:
    [np.ptp(s) == 0 and np.any(s != 0)]; [np.ptp] of an empty column
    raises and the helper answers [False]. *)
Definition safe_is_const (xs : list Q) : bool :=
  match xs with
  | [] => false
  | v :: vs =>
      forallb (fun w => Qeq_bool w v) vs
      && existsb (fun w => negb (Qeq_bool w 0)) xs
  end.

(** [sm.add_constant(x)] on a one-column series, with its defaults
    [prepend=True, has_constant='skip']: the constant column goes FIRST,
    and nothing is added when the column already is a nonzero constant. *)
Definition add_constant (xs : list Q) : list (list Q) :=
  if safe_is_const xs then map (fun v => [v]) xs
  else map (fun v => [1; v]) xs.

Definition col (j : nat) (r : list Q) : Q := nth j r 0.

(** [sm.OLS(ys, X).fit().params] for a design [X] (rows of [X]) of one or
    two columns: the default [method='pinv'] gives [pinv(X) @ ys], with
    the coefficients in the column order of [X].  A design of full column
    rank gives the solution of the normal equations [X^T X b = X^T y]
    (Cramer's rule below).  A design of rank at most one (one column, or
    two proportional columns such as the constant next to an all-zero [x])
    has [pinv(X) = X^T / tr(X^T X)], the zero matrix when [X] is zero
    (division by [0] is [0] in [Q]).  A design without rows is refused:
    while looking for the constant column statsmodels takes [np.max] of the
    empty exog, which raises. *)
Definition gram (X : list (list Q)) (ys : list Q) (f g : list Q * Q -> Q) : Q :=
  sumQ (map (fun p => f p * g p) (combine X ys)).

Definition ols (ys : list Q) (X : list (list Q)) : option (list Q) :=
  let s := gram X ys in
  let a (p : list Q * Q) := col 0 (fst p) in
  let b (p : list Q * Q) := col 1 (fst p) in
  let y (p : list Q * Q) := snd p in
  match X with
  | [] => None
  | r0 :: _ =>
      match length r0 with
      | 1%nat => Some [s a y / s a a]
      | 2%nat =>
          let m11 := s a a in
          let m12 := s a b in
          let m22 := s b b in
          let r1 := s a y in
          let r2 := s b y in
          let det := m11 * m22 - m12 * m12 in
          if Qeq_bool det 0 then
            let tr := m11 + m22 in Some [r1 / tr; r2 / tr]
          else Some [(r1 * m22 - m12 * r2) / det; (m11 * r2 - m12 * r1) / det]
      | _ => None
      end
  end.

(* ------------------------------------------------------------------ *)
(** ** [RollingOLS] *)

(** One row of the result frame, columns [('x', 'intercept')]. *)
Record Row := mkRow { row_ts : Z; row_x : Q; row_intercept : Q }.

(** [result.iloc[i_start] = list(model_fit.params)] on a row of the two
    columns [('x', 'intercept')]: two parameters are written to them in
    that order; a single parameter (a fit whose design kept no constant
    column) is broadcast to both. *)
Definition store_params (ps : list Q) : option (Q * Q) :=
  match ps with
  | [p0; p1] => Some (p0, p1)
  | [p] => Some (p, p)
  | _ => None
  end.

(** The body of the loop for [i_start]: slice both series, add the
    constant, fit.  [sm.OLS] on pandas data refuses endog and exog whose
    indices differ. *)
Definition fit_window (y x : Series) (window i_start : nat) : option (Q * Q) :=
  let i_end := (i_start + window)%nat in
  let x_new := slice x i_start i_end in
  let y_new := slice y i_start i_end in
  if list_eq_dec Z.eq_dec (map fst y_new) (map fst x_new) then
    match ols (map snd y_new) (add_constant (map snd x_new)) with
    | Some ps => store_params ps
    | None => None
    end
  else None.

Fixpoint fit_all (y x : Series) (window : nat) (offs : list nat)
  : option (list (Q * Q)) :=
  match offs with
  | [] => Some []
  | i :: rest =>
      match fit_window y x window i with
      | Some p =>
          match fit_all y x window rest with
          | Some ps => Some (p :: ps)
          | None => None
          end
      | None => None
      end
  end.

(** [RollingOLS(y, x, window)]: the frame is indexed by [y[window:].index]
    and row [i_start] receives the fit of window [[i_start, i_start+window)]
    for [i_start] in [range(len(y) - window)]. *)
Definition RollingOLS (y x : Series) (window : nat) : option (list Row) :=
  let index := map fst (skipn window y) in
  match fit_all y x window (seq 0 (length y - window)) with
  | Some ps => Some (map (fun '(t, (p0, p1)) => mkRow t p0 p1) (combine index ps))
  | None => None
  end.

(* ------------------------------------------------------------------ *)
(** ** Tables and [get_pricing] *)

(** The [symbol] argument: one ticker string, or a Python list of them. *)
Inductive PySym := SymStr (s : string) | SymList (l : list string).

(** The [fields] argument, when it is not [None]. *)
Inductive Fields := FStr (s : string) | FList (l : list string).

(** A cell of a table; [None] is a missing value (NaN). *)
Definition Cell := option Q.

(** A pandas DataFrame: its index and its labelled columns, in order. *)
Record Frame := mkFrame { index : list Z; columns : list (string * list Cell) }.

(** A pandas Series of cells. *)
Definition PSeries := list (Z * Cell).

Definition is_empty {A} (l : list A) : bool :=
  match l with [] => true | _ => false end.

(** Python truthiness of [fields] ([None], [''] and [[]] are false). *)
Definition fields_truthy (fields : option Fields) : bool :=
  match fields with
  | None => false
  | Some (FStr s) => negb (String.eqb s "")
  | Some (FList l) => negb (is_empty l)
  end.

(** [''.join(fields)]: a string joins to itself, a list of names to their
    concatenation. *)
Definition join_fields (f : Fields) : string :=
  match f with
  | FStr s => s
  | FList l => String.concat "" l
  end.

(** Python [s.split(',')]. *)
Fixpoint split_comma_from (s cur : string) : list string :=
  match s with
  | EmptyString => [cur]
  | String c rest =>
      if Ascii.eqb c ","%char then cur :: split_comma_from rest ""
      else split_comma_from rest (String.append cur (String c ""))
  end.

Definition split_comma (s : string) : list string := split_comma_from s "".

Definition rename_map : list (string * string) :=
  [("Open", "open_price"); ("High", "high"); ("Low", "low");
   ("Close", "close_price"); ("Volume", "volume")].

Fixpoint assoc_str (k : string) (m : list (string * string)) : option string :=
  match m with
  | [] => None
  | (k', v) :: m' => if String.eqb k' k then Some v else assoc_str k m'
  end.

(** The label [df.rename(columns=m)] gives to [l]: labels absent from [m]
    are kept. *)
Definition rename_label (m : list (string * string)) (l : string) : string :=
  match assoc_str l m with
  | Some l' => l'
  | None => l
  end.

(** [df.rename(columns=m)]. *)
Definition rename_cols (m : list (string * string)) (df : Frame) : Frame :=
  mkFrame (index df) (map (fun p => (rename_label m (fst p), snd p)) (columns df)).

Definition has_col (cols : list (string * list Cell)) (n : string) : bool :=
  existsb (fun p => String.eqb (fst p) n) cols.

(** [df.drop(names, axis=1)]: a KeyError when a label is missing. *)
Definition drop_cols (names : list string) (df : Frame) : option Frame :=
  if forallb (has_col (columns df)) names
  then Some (mkFrame (index df)
               (filter (fun p => negb (existsb (String.eqb (fst p)) names))
                  (columns df)))
  else None.

(** Whether a column carries the label [n]. *)
Definition labelled (n : string) (p : string * list Cell) : bool :=
  String.eqb (fst p) n.

(** [df[n]]: every column labelled [n], in order (labels may repeat).
    None of them is a KeyError; one is a Series; several are a DataFrame. *)
Definition df_col (n : string) (cols : list (string * list Cell))
  : list (list Cell) :=
  map snd (filter (labelled n) cols).

(** The first column labelled [n]: [df[n]] itself when exactly one column
    has that label. *)
Fixpoint get_col (n : string) (cols : list (string * list Cell))
  : option (list Cell) :=
  match cols with
  | [] => None
  | (m, c) :: rest => if String.eqb m n then Some c else get_col n rest
  end.

(** [df[n] = c] with [c] already aligned on [df]'s index: an existing
    column is overwritten in place, a new one goes last. *)
Definition set_col (n : string) (c : list Cell) (df : Frame) : Frame :=
  if has_col (columns df) n
  then mkFrame (index df)
         (map (fun p => if String.eqb (fst p) n then (fst p, c) else p)
            (columns df))
  else mkFrame (index df) (columns df ++ [(n, c)]).

(** [df[n] = other] for a DataFrame [other] when [df] already has as many
    columns labelled [n] as [other] has columns: those columns take
    [other]'s columns by position. *)
Fixpoint set_cols_pos (n : string) (vs : list (list Cell))
    (cols : list (string * list Cell)) : list (string * list Cell) :=
  match cols with
  | [] => []
  | (m, c) :: rest =>
      if String.eqb m n then
        match vs with
        | v :: vs' => (m, v) :: set_cols_pos n vs' rest
        | [] => (m, c) :: set_cols_pos n [] rest
        end
      else (m, c) :: set_cols_pos n vs rest
  end.

(** [df['price'] = df['close_price']].  No [close_price] column is a
    KeyError.  With one, [df['close_price']] is a Series, which is copied
    into every column labelled [price] (or into a new last column).  With
    several, it is a DataFrame: pandas assigns it only over as many
    existing [price] columns, by position, and raises ValueError otherwise. *)
Definition set_price (df : Frame) : option Frame :=
  match df_col "close_price" (columns df) with
  | [] => None
  | [close] => Some (set_col "price" close df)
  | closes =>
      if Nat.eqb (length (df_col "price" (columns df))) (length closes)
      then Some (mkFrame (index df) (set_cols_pos "price" closes (columns df)))
      else None
  end.

(** [df[names]] with a list of labels: for each name in turn, every column
    with that label, in column order; a KeyError when a name labels no
    column. *)
Fixpoint select_cols (names : list string) (df : Frame)
  : option (list (string * list Cell)) :=
  match names with
  | [] => Some []
  | n :: rest =>
      match filter (labelled n) (columns df), select_cols rest df with
      | [], _ => None
      | cs, Some cs' => Some (cs ++ cs')
      | _, None => None
      end
  end.

Definition select (names : list string) (df : Frame) : option Frame :=
  match select_cols names df with
  | Some cs => Some (mkFrame (index df) cs)
  | None => None
  end.

Definition interval_of (frequency : string) : string :=
  if String.eqb frequency "daily" then "1d"
  else if String.eqb frequency "minute" then "1m"
  else frequency.

(** The single-symbol path after the download: rename, drop the two
    provider columns, copy [close_price] to [price], project on [fields]. *)
Definition process_frame (df : Frame) (fields : option Fields) : option Frame :=
  let df := rename_cols rename_map df in
  match drop_cols ["Dividends"; "Stock Splits"] df with
  | None => None
  | Some df =>
      match set_price df with
      | None => None
      | Some df =>
          match fields with
          | Some f =>
              if fields_truthy fields then select (split_comma (join_fields f)) df
              else Some df
          | None => Some df
          end
      end
  end.

(** [s[fields]] on the frame a single-symbol call returned, as assigned to
    one column of the result: a string picks the columns with that label,
    a list the columns of all its labels.  A single column assigns like a
    Series; none is a KeyError, and a frame of several columns cannot be
    assigned to one label (ValueError). *)
Definition getitem_fields (df : Frame) (f : Fields) : option PSeries :=
  match f with
  | FStr n =>
      match df_col n (columns df) with
      | [c] => Some (combine (index df) c)
      | _ => None
      end
  | FList l =>
      match select_cols l df with
      | Some [(_, c)] => Some (combine (index df) c)
      | _ => None
      end
  end.

Fixpoint nodupb (l : list Z) : bool :=
  match l with
  | [] => true
  | t :: rest => negb (existsb (Z.eqb t) rest) && nodupb rest
  end.

Fixpoint lookup_ts (t : Z) (s : PSeries) : Cell :=
  match s with
  | [] => None
  | (t', c) :: rest => if Z.eqb t' t then c else lookup_ts t rest
  end.

(** [prices_df[key] = s] for a Series [s]: a frame without rows first takes
    [s]'s index (its columns become missing values there); then [s] is
    copied when its index is the frame's, else reindexed on the frame's
    index (missing where absent, an error when [s]'s index repeats). *)
Definition frame_setitem (df : Frame) (key : string) (s : PSeries) : option Frame :=
  let df := if is_empty (index df) && negb (is_empty s)
            then mkFrame (map fst s)
                   (map (fun p => (fst p, repeat None (length s))) (columns df))
            else df in
  let vals :=
    if list_eq_dec Z.eq_dec (map fst s) (index df) then Some (map snd s)
    else if is_empty (index df) then Some (map snd s)
    else if nodupb (map fst s) then Some (map (fun t => lookup_ts t s) (index df))
    else None in
  match vals with
  | Some vals => Some (set_col key vals df)
  | None => None
  end.

(** [df.dropna()]: keep the rows where no column is missing. *)
Definition row_ok (df : Frame) (k : nat) : bool :=
  forallb (fun p => match nth k (snd p) None with Some _ => true | None => false end)
    (columns df).

Definition dropna (df : Frame) : Frame :=
  let keep := filter (row_ok df) (seq 0 (length (index df))) in
  mkFrame (map (fun k => nth k (index df) 0%Z) keep)
    (map (fun p => (fst p, map (fun k => nth k (snd p) None) keep)) (columns df)).

Section Pricing.

(** The market-data provider: [yf.Ticker(symbol).history(start=..., end=...,
    interval=...)], and the clock read by [datetime.now()]. *)
Variable history : PySym -> string -> string -> string -> Frame.
Variable now : string.

Definition end_date_or_now (end_date : option string) : string :=
  match end_date with
  | Some e => if String.eqb e "" then now else e
  | None => now
  end.

(** The single-symbol path of [get_pricing]. *)
Definition fetch (symbol : PySym) (start_date : string) (end_date : option string)
    (frequency : string) (fields : option Fields) : option Frame :=
  process_frame
    (history symbol start_date (end_date_or_now end_date) (interval_of frequency))
    fields.

(** [get_pricing(item, ..., fields)[fields]] for one symbol of the list. *)
Definition symbol_series (start_date : string) (end_date : option string)
    (frequency : string) (f : Fields) (item : string) : option PSeries :=
  match fetch (SymStr item) start_date end_date frequency (Some f) with
  | Some sub => getitem_fields sub f
  | None => None
  end.

(** The loop [for item in symbol: prices_df[item] = ...]. *)
Fixpoint assemble (start_date : string) (end_date : option string)
    (frequency : string) (f : Fields) (acc : Frame) (items : list string)
  : option Frame :=
  match items with
  | [] => Some acc
  | item :: rest =>
      match symbol_series start_date end_date frequency f item with
      | Some s =>
          match frame_setitem acc item s with
          | Some acc' => assemble start_date end_date frequency f acc' rest
          | None => None
          end
      | None => None
      end
  end.

(** [get_pricing]: a list of symbols with truthy [fields] is fetched symbol
    by symbol (each item is a string, so the recursive call takes the
    single-symbol path) into [pd.DataFrame()], then [dropna]; anything else
    goes down the single-symbol path as it is. *)
Definition get_pricing (symbol : PySym) (start_date : string)
    (end_date : option string) (frequency : string) (fields : option Fields)
  : option Frame :=
  match symbol, fields with
  | SymList items, Some f =>
      if fields_truthy fields then
        match assemble start_date end_date frequency f (mkFrame [] []) items with
        | Some df => Some (dropna df)
        | None => None
        end
      else fetch symbol start_date end_date frequency fields
  | _, _ => fetch symbol start_date end_date frequency fields
  end.

End Pricing.

Definition to_row (p : Z * (Q * Q)) : Row :=
  let '(t, (p0, p1)) := p in mkRow t p0 p1.

(* ------------------------------------------------------------------ *)
(** ** Least squares with an intercept, in the words of the spec *)

(** The fit of [y] on [x] with a constant term, over the pairs
    [(x_i, y_i)] of one window: slope [Sxy / Sxx] of the centred sums,
    intercept [mean y - slope * mean x]. *)
Definition nQ {A} (P : list A) : Q := inject_Z (Z.of_nat (length P)).
Definition mean_x (P : list (Q * Q)) : Q := sumQ (map fst P) / nQ P.
Definition mean_y (P : list (Q * Q)) : Q := sumQ (map snd P) / nQ P.
Definition sxx (P : list (Q * Q)) : Q :=
  sumQ (map (fun p => (fst p - mean_x P) * (fst p - mean_x P)) P).
Definition sxy (P : list (Q * Q)) : Q :=
  sumQ (map (fun p => (fst p - mean_x P) * (snd p - mean_y P)) P).
Definition ls_slope (P : list (Q * Q)) : Q := sxy P / sxx P.
Definition ls_intercept (P : list (Q * Q)) : Q :=
  mean_y P - ls_slope P * mean_x P.

(** The pairs of window [i_start]. *)
Definition window_pairs (y x : Series) (window i_start : nat) : list (Q * Q) :=
  combine (map snd (slice x i_start (i_start + window)))
          (map snd (slice y i_start (i_start + window))).

(** *** Numerically equal inputs *)

(** Two series are equal as pandas compares them: the same time stamps and
    numerically equal values. *)
Definition series_equiv (s1 s2 : Series) : Prop :=
  Forall2 (fun a b => fst a = fst b /\ snd a == snd b) s1 s2.

Definition row_equiv (r1 r2 : Row) : Prop :=
  row_ts r1 = row_ts r2 /\ row_x r1 == row_x r2 /\
  row_intercept r1 == row_intercept r2.

Definition opt_rel {A B} (R : A -> B -> Prop) (o1 : option A) (o2 : option B)
  : Prop :=
  match o1, o2 with
  | Some a, Some b => R a b
  | None, None => True
  | _, _ => False
  end.

Definition pair_equiv (p q : Q * Q) : Prop := fst p == fst q /\ snd p == snd q.

Definition row_pair_equiv (p q : list Q * Q) : Prop :=
  Forall2 Qeq (fst p) (fst q) /\ snd p == snd q.

(* ------------------------------------------------------------------ *)
(** ** Sample series *)

(** A series with time stamps [0, 1, 2, ...]. *)
Definition ser (l : list Q) : Series :=
  combine (map Z.of_nat (seq 0 (length l))) l.

Definition s123 : Series := ser [1; 2; 3].

Definition y40 : Series :=
  ser (map (fun k => inject_Z (2 * Z.of_nat k + 1)) (seq 0 40)).
Definition x40 : Series :=
  ser (map (fun k => inject_Z (Z.of_nat k * Z.of_nat k)) (seq 0 40)).

Definition y7 : Series := ser [1; 4; 2; 8; 5; 7; 3].

Definition s123' : Series := [(0%Z, 2 # 2); (1%Z, 4 # 2); (2%Z, 6 # 2)].

Definition native_columns : list string :=
  ["Open"; "High"; "Low"; "Close"; "Volume"; "Dividends"; "Stock Splits"].

Definition native_frame (idx : list Z) (close : list Cell) : Frame :=
  let z := map (fun _ => Some 0) idx in
  mkFrame idx (combine native_columns [close; close; close; close; z; z; z]).

(** A provider with two tickers; [A] misses its close at time 2. *)
Definition sample_history (symbol : PySym) (start_date end_date interval : string)
  : Frame :=
  match symbol with
  | SymStr s =>
      if String.eqb s "A" then native_frame [1; 2; 3]%Z [Some 10; None; Some 30]
      else if String.eqb s "B" then native_frame [2; 3; 4]%Z [Some 20; Some 25; Some 40]
      else native_frame [] []
  | SymList _ => native_frame [] []
  end.

Definition normalized_columns : list string :=
  ["open_price"; "high"; "low"; "close_price"; "volume"; "price"].

Definition add_key (keys : list string) (k : string) : list string :=
  if existsb (fun m => String.eqb m k) keys then keys else keys ++ [k].

(** The labels of a frame built by assigning [items] as columns in order. *)
Definition dedup_keys (items : list string) : list string :=
  fold_left add_key items [].


(** The number of provider labels that become [close_price] after the
    renaming ([Close], or [close_price] itself). *)
Definition close_count (L : list string) : nat :=
  length (filter (fun l => String.eqb l "Close" || String.eqb l "close_price") L).

(** The number of provider labels [price]. *)
Definition price_count (L : list string) : nat :=
  length (filter (fun l => String.eqb l "price") L).

(** The provider labels the single-symbol path needs: the two columns it
    drops, and either exactly one column that becomes [close_price], or
    several, with exactly as many columns labelled [price]. *)
Definition provider_ok (L : list string) : Prop :=
  In "Dividends" L /\ In "Stock Splits" L /\
  (close_count L = 1%nat \/ (2 <= close_count L /\ price_count L = close_count L)%nat).

(** The series [y] with every value [v] replaced by [k * v + c]. *)
Definition affine_series (k c : Q) (s : Series) : Series :=
  map (fun p => (fst p, k * snd p + c)) s.

(** [s123] with every time stamp moved one step later. *)
Definition s123_late : Series := [(1%Z, 1); (2%Z, 2); (3%Z, 3)].

(* ------------------------------------------------------------------ *)
(** ** Structure of the [RollingOLS] loop *)

Section RollingStructure.

Variables (y x : Series) (window : nat).

Lemma fit_all_length offs ps :
  fit_all y x window offs = Some ps -> length ps = length offs.
Proof.
  revert ps; induction offs as [|i rest IH]; intros ps H; simpl in H.
  - injection H as <-; reflexivity.
  - destruct (fit_window y x window i) as [p|]; [|discriminate].
    destruct (fit_all y x window rest) as [ps'|] eqn:E; [|discriminate].
    injection H as <-; simpl; f_equal; apply IH; reflexivity.
Qed.

Lemma fit_all_nth offs ps k o :
  fit_all y x window offs = Some ps -> nth_error offs k = Some o ->
  exists p, nth_error ps k = Some p /\ fit_window y x window o = Some p.
Proof.
  revert ps k; induction offs as [|i rest IH]; intros ps k H Hk; simpl in H.
  - destruct k; discriminate.
  - destruct (fit_window y x window i) as [p|] eqn:Ef; [|discriminate].
    destruct (fit_all y x window rest) as [ps'|] eqn:E; [|discriminate].
    injection H as <-.
    destruct k as [|k]; simpl in Hk.
    + injection Hk as <-; exists p; split; [reflexivity|exact Ef].
    + destruct (IH ps' k eq_refl Hk) as [q [Hq Hf]].
      exists q; split; [exact Hq|exact Hf].
Qed.

Lemma fit_all_ok offs :
  (forall o, In o offs -> exists p, fit_window y x window o = Some p) ->
  exists ps, fit_all y x window offs = Some ps.
Proof.
  induction offs as [|i rest IH]; intros H; simpl.
  - exists []; reflexivity.
  - destruct (H i (or_introl eq_refl)) as [p Hp]; rewrite Hp.
    destruct IH as [ps Hps].
    + intros o Ho; apply H; right; exact Ho.
    + rewrite Hps; exists (p :: ps); reflexivity.
Qed.

End RollingStructure.

Lemma nth_error_combine {A B} (l : list A) (l' : list B) k :
  nth_error (combine l l') k =
  match nth_error l k, nth_error l' k with
  | Some a, Some b => Some (a, b)
  | _, _ => None
  end.
Proof.
  revert l' k; induction l as [|a l IH]; intros [|b l'] [|k]; simpl;
    try reflexivity.
  - destruct (nth_error l k); reflexivity.
  - apply IH.
Qed.

Lemma RollingOLS_unfold y x window :
  RollingOLS y x window =
  match fit_all y x window (seq 0 (length y - window)) with
  | Some ps => Some (map to_row (combine (map fst (skipn window y)) ps))
  | None => None
  end.
Proof. reflexivity. Qed.

(** Row [i] of a successful run: its time stamp is [y]'s at [window + i]
    and its two fields are the two parameters of window [i]'s fit. *)
Lemma RollingOLS_nth y x window rows i r :
  RollingOLS y x window = Some rows -> nth_error rows i = Some r ->
  (exists v, nth_error y (window + i)%nat = Some (row_ts r, v)) /\
  fit_window y x window i = Some (row_x r, row_intercept r).
Proof.
  rewrite RollingOLS_unfold.
  destruct (fit_all y x window (seq 0 (length y - window))) as [ps|] eqn:E;
    [|discriminate].
  intros H Hr; injection H as <-.
  rewrite nth_error_map, nth_error_combine in Hr.
  rewrite nth_error_map, nth_error_skipn in Hr.
  destruct (nth_error y (window + i)%nat) as [[t v]|] eqn:Ey; [|discriminate].
  destruct (nth_error ps i) as [[p0 p1]|] eqn:Ep; [|discriminate].
  simpl in Hr; injection Hr as <-; simpl.
  split; [exists v; reflexivity|].
  assert (Hi : nth_error (seq 0 (length y - window)) i = Some i).
  { rewrite nth_error_seq.
    assert (i < length ps)%nat by (apply nth_error_Some; congruence).
    rewrite (fit_all_length _ _ _ _ _ E), length_seq in H.
    destruct (Nat.ltb_spec i (length y - window)); [reflexivity|lia]. }
  destruct (fit_all_nth _ _ _ _ _ _ _ E Hi) as [q [Hq Hf]].
  rewrite Ep in Hq; injection Hq as <-; exact Hf.
Qed.

Lemma RollingOLS_length_aux y x window rows :
  RollingOLS y x window = Some rows -> length rows = (length y - window)%nat.
Proof.
  rewrite RollingOLS_unfold.
  destruct (fit_all y x window (seq 0 (length y - window))) as [ps|] eqn:E;
    [|discriminate].
  intros H; injection H as <-.
  rewrite length_map, length_combine, length_map, length_skipn.
  rewrite (fit_all_length _ _ _ _ _ E), length_seq; lia.
Qed.


(** *** Sums *)

Lemma sumQ_ext {A} (f g : A -> Q) (l : list A) :
  (forall a, f a == g a) -> sumQ (map f l) == sumQ (map g l).
Proof.
  intros H; induction l as [|a l IH]; simpl; [reflexivity|].
  rewrite H, IH; reflexivity.
Qed.

Lemma nQ_cons {A} (p : A) P : nQ (p :: P) == nQ P + 1.
Proof.
  unfold nQ; simpl length.
  rewrite Nat2Z.inj_succ, <- Z.add_1_r, inject_Z_plus; reflexivity.
Qed.

Lemma nQ_nil {A} : nQ (@nil A) == 0.
Proof. reflexivity. Qed.

Lemma sumQ_const_one {A} (l : list A) (c : A -> Q) :
  (forall a, c a == 1) -> sumQ (map c l) == nQ l.
Proof.
  intros H; induction l as [|p l IH]; simpl; [reflexivity|].
  rewrite H, IH, nQ_cons; ring.
Qed.

Lemma sum_centered (P : list (Q * Q)) (f g : Q * Q -> Q) (a b : Q) :
  sumQ (map (fun p => (f p - a) * (g p - b)) P) ==
  sumQ (map (fun p => f p * g p) P) - b * sumQ (map f P)
  - a * sumQ (map g P) + nQ P * a * b.
Proof.
  induction P as [|p P IH]; simpl.
  - rewrite nQ_nil; ring.
  - rewrite IH, nQ_cons; ring.
Qed.

Lemma combine_map_l {A B C} (h : A -> C) (l : list A) (l' : list B) :
  combine (map h l) l' = map (fun p => (h (fst p), snd p)) (combine l l').
Proof.
  revert l'; induction l as [|a l IH]; intros [|b l']; simpl; try reflexivity.
  rewrite IH; reflexivity.
Qed.

Lemma nQ_zero {A} (P : list A) : nQ P == 0 -> P = [].
Proof.
  destruct P as [|p P]; [reflexivity|].
  unfold nQ, Qeq; intros H; cbn [Qnum Qden inject_Z] in H.
  change (length (p :: P)) with (S (length P)) in H.
  rewrite Nat2Z.inj_succ in H; lia.
Qed.

(** *** The solver on a design [[1; x]] *)

Section ConstDesign.

Variables (xs ys : list Q).

Let P := combine xs ys.
Let n := nQ P.
Let Sx := sumQ (map fst P).
Let Sy := sumQ (map snd P).
Let Sxx := sumQ (map (fun p => fst p * fst p) P).
Let Sxy := sumQ (map (fun p => fst p * snd p) P).

Let X := map (fun v => [1; v]) xs.
Let a (p : list Q * Q) := col 0 (fst p).
Let b (p : list Q * Q) := col 1 (fst p).
Let y (p : list Q * Q) := snd p.

Lemma ols_const_design_eq v0 xs' :
  xs = v0 :: xs' ->
  ols ys X =
  let det := gram X ys a a * gram X ys b b - gram X ys a b * gram X ys a b in
  if Qeq_bool det 0 then
    Some [gram X ys a y / (gram X ys a a + gram X ys b b);
          gram X ys b y / (gram X ys a a + gram X ys b b)]
  else Some [(gram X ys a y * gram X ys b b - gram X ys a b * gram X ys b y) / det;
             (gram X ys a a * gram X ys b y - gram X ys a b * gram X ys a y) / det].
Proof. intros E; unfold X; rewrite E; reflexivity. Qed.

Lemma gram_aa : gram X ys a a == n.
Proof.
  unfold gram, X; rewrite combine_map_l, map_map.
  apply sumQ_const_one; intros; unfold a, col; simpl; ring.
Qed.

Lemma gram_ab : gram X ys a b == Sx.
Proof.
  unfold gram, X; rewrite combine_map_l, map_map.
  apply sumQ_ext; intros; unfold a, b, col; simpl; ring.
Qed.

Lemma gram_bb : gram X ys b b == Sxx.
Proof.
  unfold gram, X; rewrite combine_map_l, map_map.
  apply sumQ_ext; intros; unfold b, col; simpl; ring.
Qed.

Lemma gram_ay : gram X ys a y == Sy.
Proof.
  unfold gram, X; rewrite combine_map_l, map_map.
  apply sumQ_ext; intros; unfold a, y, col; simpl; ring.
Qed.

Lemma gram_by : gram X ys b y == Sxy.
Proof.
  unfold gram, X; rewrite combine_map_l, map_map.
  apply sumQ_ext; intros; unfold b, y, col; simpl; ring.
Qed.

Lemma xs_cons : xs <> [] -> exists v0 xs', xs = v0 :: xs'.
Proof. destruct xs as [|v0 xs']; [congruence|eauto]. Qed.

Lemma ols_const_design b0 b1 :
  xs <> [] -> ~ (n * Sxx - Sx * Sx == 0) ->
  ols ys X = Some [b0; b1] ->
  b0 == (Sy * Sxx - Sx * Sxy) / (n * Sxx - Sx * Sx) /\
  b1 == (n * Sxy - Sx * Sy) / (n * Sxx - Sx * Sx).
Proof.
  intros Hne Hd.
  destruct (xs_cons Hne) as [v0 [xs' Exs]].
  rewrite (ols_const_design_eq v0 xs' Exs); cbv zeta.
  match goal with
  | |- context [Qeq_bool ?d 0] => destruct (Qeq_bool d 0) eqn:Ed
  end.
  - apply Qeq_bool_eq in Ed.
    rewrite gram_aa, gram_ab, gram_bb in Ed; contradiction.
  - intros H; injection H as <- <-.
    rewrite gram_aa, gram_ab, gram_bb, gram_ay, gram_by.
    split; reflexivity.
Qed.

Lemma ols_const_design_some :
  xs <> [] -> ~ (n * Sxx - Sx * Sx == 0) ->
  exists b0 b1, ols ys X = Some [b0; b1].
Proof.
  intros Hne Hd.
  destruct (xs_cons Hne) as [v0 [xs' Exs]].
  rewrite (ols_const_design_eq v0 xs' Exs); cbv zeta.
  match goal with
  | |- context [Qeq_bool ?d 0] => destruct (Qeq_bool d 0)
  end; eauto.
Qed.

End ConstDesign.

(** *** Cramer's rule against the centred formulas *)

Section Cramer.

Variable P : list (Q * Q).

Let n := nQ P.
Let Sx := sumQ (map fst P).
Let Sy := sumQ (map snd P).
Let Sxx := sumQ (map (fun p => fst p * fst p) P).
Let Sxy := sumQ (map (fun p => fst p * snd p) P).

Lemma sxx_raw : sxx P == Sxx - mean_x P * Sx - mean_x P * Sx + n * mean_x P * mean_x P.
Proof. unfold sxx; rewrite sum_centered; reflexivity. Qed.

Lemma sxy_raw : sxy P == Sxy - mean_y P * Sx - mean_x P * Sy + n * mean_x P * mean_y P.
Proof. unfold sxy; rewrite sum_centered; reflexivity. Qed.

Lemma det_sxx : ~ (n == 0) -> n * Sxx - Sx * Sx == n * sxx P.
Proof.
  intros Hn; rewrite sxx_raw; unfold mean_x; fold Sx n; field; exact Hn.
Qed.

Lemma n_nonzero : ~ (n * Sxx - Sx * Sx == 0) -> ~ (n == 0).
Proof.
  intros Hd Hn; apply Hd; apply nQ_zero in Hn.
  unfold Sx, Sxx, n; rewrite Hn; reflexivity.
Qed.

Lemma cramer_ls :
  ~ (n * Sxx - Sx * Sx == 0) ->
  (Sy * Sxx - Sx * Sxy) / (n * Sxx - Sx * Sx) == ls_intercept P /\
  (n * Sxy - Sx * Sy) / (n * Sxx - Sx * Sx) == ls_slope P.
Proof.
  intros Hd.
  assert (Hn : ~ (n == 0)) by (apply n_nonzero; exact Hd).
  assert (Hs : ~ (sxx P == 0)).
  { intros H; apply Hd; rewrite (det_sxx Hn), H; ring. }
  unfold ls_intercept, ls_slope.
  rewrite sxy_raw.
  assert (Hsx : sxx P == (n * Sxx - Sx * Sx) / n).
  { rewrite (det_sxx Hn); field; exact Hn. }
  rewrite Hsx; unfold mean_x, mean_y; fold Sx Sy n.
  split; field; split; assumption.
Qed.

End Cramer.

(** *** The fields of a row *)

(** *** Windows where [y] and [x] coincide *)

Lemma sumQ_ext_in {A} (f g : A -> Q) (l : list A) :
  (forall a, In a l -> f a == g a) -> sumQ (map f l) == sumQ (map g l).
Proof.
  induction l as [|a l IH]; intros H; simpl; [reflexivity|].
  rewrite (H a (or_introl eq_refl)), IH; [reflexivity|].
  intros a' Ha'; apply H; right; exact Ha'.
Qed.

Lemma combine_diag_in {A} (xs : list A) p : In p (combine xs xs) -> snd p = fst p.
Proof.
  induction xs as [|v xs IH]; simpl; [tauto|].
  intros [<-|H]; [reflexivity|exact (IH H)].
Qed.

Lemma combine_diag_snd {A} (xs : list A) : map snd (combine xs xs) = map fst (combine xs xs).
Proof.
  induction xs as [|v xs IH]; simpl; [reflexivity|].
  rewrite IH; reflexivity.
Qed.

Lemma ls_diag xs :
  ~ (sxx (combine xs xs) == 0) ->
  ls_intercept (combine xs xs) == 0 /\ ls_slope (combine xs xs) == 1.
Proof.
  intros Hs.
  assert (Hm : mean_y (combine xs xs) = mean_x (combine xs xs))
    by (unfold mean_y, mean_x; rewrite combine_diag_snd; reflexivity).
  assert (Hxy : sxy (combine xs xs) == sxx (combine xs xs)).
  { unfold sxy, sxx; rewrite Hm; apply sumQ_ext_in.
    intros p Hp; rewrite (combine_diag_in xs p Hp); reflexivity. }
  unfold ls_intercept, ls_slope; rewrite Hxy, Hm.
  split; field; exact Hs.
Qed.

(** A window whose [x] values are one nonzero constant has no spread. *)
Lemma sums_const (P : list (Q * Q)) c :
  (forall p, In p P -> fst p == c) ->
  sumQ (map fst P) == nQ P * c /\
  sumQ (map (fun p => fst p * fst p) P) == nQ P * (c * c).
Proof.
  induction P as [|p P IH]; intros H; simpl.
  - rewrite nQ_nil; split; ring.
  - destruct IH as [H1 H2]; [intros q Hq; apply H; right; exact Hq|].
    rewrite (H p (or_introl eq_refl)), H1, H2, nQ_cons; split; ring.
Qed.

Lemma sxx_const (P : list (Q * Q)) c :
  (forall p, In p P -> fst p == c) -> sxx P == 0.
Proof.
  intros H; destruct (sums_const P c H) as [H1 H2].
  destruct (Qeq_dec (nQ P) 0) as [Hn|Hn].
  - apply nQ_zero in Hn; rewrite Hn; reflexivity.
  - rewrite sxx_raw; unfold mean_x; rewrite H1, H2; field; exact Hn.
Qed.

Lemma safe_is_const_sxx xs ys :
  safe_is_const xs = true -> sxx (combine xs ys) == 0.
Proof.
  destruct xs as [|v vs]; [discriminate|].
  intros H; cbn [safe_is_const] in H; apply andb_prop in H; destruct H as [H _].
  apply (sxx_const _ v); intros [w w'] Hp; cbn [fst].
  apply in_combine_l in Hp; destruct Hp as [<-|Hp]; [reflexivity|].
  apply Qeq_bool_eq; apply (proj1 (forallb_forall _ _) H w Hp).
Qed.

(** A window whose [x] values have a nonzero spread gives a regular
    normal system for the design [[1; x]]. *)
Lemma spread_det (P : list (Q * Q)) :
  ~ (sxx P == 0) ->
  ~ (nQ P * sumQ (map (fun p => fst p * fst p) P)
     - sumQ (map fst P) * sumQ (map fst P) == 0).
Proof.
  intros Hs Hd.
  destruct (Qeq_dec (nQ P) 0) as [Hn|Hn].
  - apply Hs; rewrite (nQ_zero _ Hn); reflexivity.
  - apply Hs; rewrite (det_sxx P Hn) in Hd.
    exact (Qmult_integral_l _ _ Hn Hd).
Qed.

Lemma store_params_pair q0 q1 p0 p1 :
  store_params [q0; q1] = Some (p0, p1) -> q0 = p0 /\ q1 = p1.
Proof. intros H; injection H as <- <-; split; reflexivity. Qed.

(** A window whose [x] values are not all equal is fitted with the
    constant column prepended: the row's first field is the intercept of
    the least-squares line and its second the slope. *)
Lemma fit_window_params y x window i p0 p1 :
  ~ (sxx (window_pairs y x window i) == 0) ->
  fit_window y x window i = Some (p0, p1) ->
  p0 == ls_intercept (window_pairs y x window i) /\
  p1 == ls_slope (window_pairs y x window i).
Proof.
  intros Hs; unfold fit_window; unfold window_pairs in *.
  destruct (list_eq_dec Z.eq_dec _ _) as [_|_]; [|discriminate].
  set (xs := map snd (slice x i (i + window))) in *.
  set (ys := map snd (slice y i (i + window))) in *.
  unfold add_constant.
  destruct (safe_is_const xs) eqn:Hc.
  { exfalso; apply Hs; apply safe_is_const_sxx; exact Hc. }
  assert (Hne : xs <> []) by (intros Hx; apply Hs; rewrite Hx; reflexivity).
  destruct (ols_const_design_some xs ys Hne (spread_det _ Hs)) as [b0 [b1 Hb]].
  rewrite Hb; intros H; apply store_params_pair in H; destruct H as [<- <-].
  destruct (ols_const_design xs ys b0 b1 Hne (spread_det _ Hs) Hb) as [H0 H1].
  destruct (cramer_ls (combine xs ys) (spread_det _ Hs)) as [C0 C1].
  rewrite H0, H1, C0, C1; split; reflexivity.
Qed.

Lemma RollingOLS_row_fields y x window rows i r :
  RollingOLS y x window = Some rows -> nth_error rows i = Some r ->
  ~ (sxx (window_pairs y x window i) == 0) ->
  row_x r == ls_intercept (window_pairs y x window i) /\
  row_intercept r == ls_slope (window_pairs y x window i).
Proof.
  intros Hrun Hrow Hs.
  destruct (RollingOLS_nth _ _ _ _ _ _ Hrun Hrow) as [_ Hf].
  exact (fit_window_params _ _ _ _ _ _ Hs Hf).
Qed.

Lemma fit_window_identical y window i :
  ~ (sxx (window_pairs y y window i) == 0) ->
  exists p0 p1, fit_window y y window i = Some (p0, p1) /\ p0 == 0 /\ p1 == 1.
Proof.
  intros Hs.
  assert (Hfit : exists p0 p1, fit_window y y window i = Some (p0, p1)).
  { unfold fit_window.
    destruct (list_eq_dec Z.eq_dec _ _) as [_|Hne]; [|contradiction].
    unfold window_pairs in Hs.
    set (xs := map snd (slice y i (i + window))) in *.
    unfold add_constant.
    destruct (safe_is_const xs) eqn:Hc.
    { exfalso; apply Hs; apply safe_is_const_sxx; exact Hc. }
    assert (Hne : xs <> []) by (intros Hx; apply Hs; rewrite Hx; reflexivity).
    assert (Hn : ~ (nQ (combine xs xs) == 0))
      by (intros Hn; apply Hs; rewrite (nQ_zero _ Hn); reflexivity).
    destruct (ols_const_design_some xs xs Hne) as [b0 [b1 Hb]].
    - rewrite (det_sxx _ Hn); intros H; apply Hs.
      apply (Qmult_integral_l (nQ (combine xs xs))); [exact Hn|].
      rewrite H; reflexivity.
    - rewrite Hb; simpl; eauto. }
  destruct Hfit as [p0 [p1 Hf]].
  exists p0, p1; split; [exact Hf|].
  destruct (fit_window_params _ _ _ _ _ _ Hs Hf) as [H0 H1].
  destruct (ls_diag _ Hs) as [L0 L1].
  split; [rewrite H0; exact L0|rewrite H1; exact L1].
Qed.

Lemma Forall2_skipn {A B} (R : A -> B -> Prop) n l1 l2 :
  Forall2 R l1 l2 -> Forall2 R (skipn n l1) (skipn n l2).
Proof.
  revert l1 l2; induction n as [|n IH]; intros l1 l2 H; [exact H|].
  destruct H; simpl; [constructor|apply IH; assumption].
Qed.

Lemma Forall2_firstn {A B} (R : A -> B -> Prop) n l1 l2 :
  Forall2 R l1 l2 -> Forall2 R (firstn n l1) (firstn n l2).
Proof.
  revert l1 l2; induction n as [|n IH]; intros l1 l2 H; simpl; [constructor|].
  destruct H; constructor; [assumption|apply IH; assumption].
Qed.

Lemma Forall2_map {A B C D} (R : C -> D -> Prop) (f : A -> C) (g : B -> D) l1 l2
    (S : A -> B -> Prop) :
  (forall a b, S a b -> R (f a) (g b)) ->
  Forall2 S l1 l2 -> Forall2 R (map f l1) (map g l2).
Proof. intros HS H; induction H; simpl; constructor; auto. Qed.

Lemma Forall2_map_eq {A B C} (f : A -> C) (g : B -> C) l1 l2 (S : A -> B -> Prop) :
  (forall a b, S a b -> f a = g b) ->
  Forall2 S l1 l2 -> map f l1 = map g l2.
Proof. intros HS H; induction H; simpl; [reflexivity|f_equal; auto]. Qed.

Lemma Forall2_combine {A B C D} (R1 : A -> B -> Prop) (R2 : C -> D -> Prop)
    a1 a2 b1 b2 :
  Forall2 R1 a1 a2 -> Forall2 R2 b1 b2 ->
  Forall2 (fun p q => R1 (fst p) (fst q) /\ R2 (snd p) (snd q))
    (combine a1 b1) (combine a2 b2).
Proof.
  intros H; revert b1 b2; induction H; intros b1 b2 Hb; simpl; [constructor|].
  destruct Hb; constructor; auto.
Qed.

Lemma sumQ_Forall2 {A B} (f : A -> Q) (g : B -> Q) l1 l2 :
  Forall2 (fun a b => f a == g b) l1 l2 -> sumQ (map f l1) == sumQ (map g l2).
Proof.
  intros H; induction H; simpl; [reflexivity|].
  rewrite H, IHForall2; reflexivity.
Qed.

Lemma Qeq_bool_compat a a' b b' :
  a == a' -> b == b' -> Qeq_bool a b = Qeq_bool a' b'.
Proof.
  intros Ha Hb.
  destruct (Qeq_bool a b) eqn:E1, (Qeq_bool a' b') eqn:E2; try reflexivity.
  - apply Qeq_bool_eq in E1; apply Qeq_bool_neq in E2.
    exfalso; apply E2; rewrite <- Ha, <- Hb; exact E1.
  - apply Qeq_bool_neq in E1; apply Qeq_bool_eq in E2.
    exfalso; apply E1; rewrite Ha, Hb; exact E2.
Qed.

Lemma col_compat j r1 r2 : Forall2 Qeq r1 r2 -> col j r1 == col j r2.
Proof.
  intros H; revert j; induction H as [|a b r1 r2 Hab H IH]; intros j;
    [reflexivity|].
  destruct j; [exact Hab|apply IH].
Qed.

Lemma gram_compat X1 X2 ys1 ys2 (f g : list Q * Q -> Q) :
  Forall2 (Forall2 Qeq) X1 X2 -> Forall2 Qeq ys1 ys2 ->
  (forall p q, row_pair_equiv p q -> f p == f q) ->
  (forall p q, row_pair_equiv p q -> g p == g q) ->
  gram X1 ys1 f g == gram X2 ys2 f g.
Proof.
  intros HX Hy Hf Hg; unfold gram; apply sumQ_Forall2.
  pose proof (Forall2_combine _ _ _ _ _ _ HX Hy) as Hc.
  induction Hc as [|p q l1 l2 Hpq _ IH]; constructor; [|exact IH].
  rewrite (Hf p q Hpq), (Hg p q Hpq); reflexivity.
Qed.

Lemma safe_is_const_compat xs1 xs2 :
  Forall2 Qeq xs1 xs2 -> safe_is_const xs1 = safe_is_const xs2.
Proof.
  intros H; destruct H as [|v1 v2 vs1 vs2 Hv Hvs]; [reflexivity|].
  cbn [safe_is_const existsb].
  f_equal; [|f_equal; [f_equal; apply Qeq_bool_compat; [exact Hv|reflexivity]|]].
  - induction Hvs as [|a b l1 l2 Hab _ IH]; [reflexivity|].
    cbn [forallb]; rewrite (Qeq_bool_compat a b v1 v2 Hab Hv), IH; reflexivity.
  - induction Hvs as [|a b l1 l2 Hab _ IH]; [reflexivity|].
    cbn [existsb]; rewrite (Qeq_bool_compat a b 0 0 Hab (Qeq_refl 0)), IH;
      reflexivity.
Qed.

Lemma add_constant_compat xs1 xs2 :
  Forall2 Qeq xs1 xs2 ->
  Forall2 (Forall2 Qeq) (add_constant xs1) (add_constant xs2).
Proof.
  intros H; unfold add_constant; rewrite (safe_is_const_compat _ _ H).
  destruct (safe_is_const xs2).
  - apply (Forall2_map _ _ _ _ _ Qeq); [|exact H].
    intros a b Hab; constructor; [exact Hab|constructor].
  - apply (Forall2_map _ _ _ _ _ Qeq); [|exact H].
    intros a b Hab; constructor; [reflexivity|constructor; [exact Hab|constructor]].
Qed.

Lemma ols_compat ys1 ys2 X1 X2 :
  Forall2 (Forall2 Qeq) X1 X2 -> Forall2 Qeq ys1 ys2 ->
  opt_rel (Forall2 Qeq) (ols ys1 X1) (ols ys2 X2).
Proof.
  intros HX Hy.
  destruct X1 as [|r1 X1'], X2 as [|r2 X2'];
    try (inversion HX; fail); [exact I|].
  assert (Hlen : length r1 = length r2)
    by (inversion HX; subst; eapply Forall2_length; eassumption).
  unfold ols; cbv beta zeta iota.
  set (fa := fun p : list Q * Q => col 0 (fst p)).
  set (fb := fun p : list Q * Q => col 1 (fst p)).
  set (fy := fun p : list Q * Q => snd p).
  assert (Ha : forall p q, row_pair_equiv p q -> fa p == fa q)
    by (intros p q [H _]; apply col_compat; exact H).
  assert (Hb : forall p q, row_pair_equiv p q -> fb p == fb q)
    by (intros p q [H _]; apply col_compat; exact H).
  assert (Hc : forall p q, row_pair_equiv p q -> fy p == fy q)
    by (intros p q [_ H]; exact H).
  pose proof (gram_compat _ _ _ _ fa fa HX Hy Ha Ha) as Eaa.
  pose proof (gram_compat _ _ _ _ fa fb HX Hy Ha Hb) as Eab.
  pose proof (gram_compat _ _ _ _ fb fb HX Hy Hb Hb) as Ebb.
  pose proof (gram_compat _ _ _ _ fa fy HX Hy Ha Hc) as Eay.
  pose proof (gram_compat _ _ _ _ fb fy HX Hy Hb Hc) as Eby.
  set (X1 := r1 :: X1') in *; set (X2 := r2 :: X2') in *.
  generalize dependent (gram X1 ys1 fa fa); intros g1aa Eaa.
  generalize dependent (gram X1 ys1 fa fb); intros g1ab Eab.
  generalize dependent (gram X1 ys1 fb fb); intros g1bb Ebb.
  generalize dependent (gram X1 ys1 fa fy); intros g1ay Eay.
  generalize dependent (gram X1 ys1 fb fy); intros g1by Eby.
  rewrite Hlen; destruct (length r2) as [|[|[|k]]]; try exact I.
  - constructor; [rewrite Eay, Eaa; reflexivity|constructor].
  - assert (Ed : g1aa * g1bb - g1ab * g1ab ==
      gram X2 ys2 fa fa * gram X2 ys2 fb fb - gram X2 ys2 fa fb * gram X2 ys2 fa fb).
    { apply Qminus_comp; apply Qmult_comp; assumption. }
    rewrite (Qeq_bool_compat _ _ 0 0 Ed (Qeq_refl 0)).
    destruct (Qeq_bool _ 0); cbn [opt_rel];
      (constructor; [|constructor; [|constructor]]);
      rewrite ?Eaa, ?Eab, ?Ebb, ?Eay, ?Eby; reflexivity.
Qed.

Lemma fit_window_compat y1 y2 x1 x2 window i :
  series_equiv y1 y2 -> series_equiv x1 x2 ->
  opt_rel pair_equiv (fit_window y1 x1 window i) (fit_window y2 x2 window i).
Proof.
  intros Hy Hx; unfold fit_window, slice.
  set (n := (i + window - i)%nat).
  pose proof (Forall2_firstn _ n _ _ (Forall2_skipn _ i _ _ Hy)) as Hy'.
  pose proof (Forall2_firstn _ n _ _ (Forall2_skipn _ i _ _ Hx)) as Hx'.
  rewrite (Forall2_map_eq fst fst _ _ _ (fun a b H => proj1 H) Hy').
  rewrite (Forall2_map_eq fst fst _ _ _ (fun a b H => proj1 H) Hx').
  destruct (list_eq_dec Z.eq_dec _ _); [|exact I].
  pose proof (ols_compat _ _ _ _
    (add_constant_compat _ _
       (Forall2_map _ snd snd _ _ _ (fun a b H => proj2 H) Hx'))
    (Forall2_map _ snd snd _ _ _ (fun a b H => proj2 H) Hy')) as Ho.
  destruct (ols _ (add_constant (map snd (firstn n (skipn i x1))))) as [ps1|],
           (ols _ (add_constant (map snd (firstn n (skipn i x2))))) as [ps2|];
    try contradiction; [|exact I].
  destruct Ho as [|p1 p2 ps1' ps2' H0 Ho]; [exact I|].
  destruct Ho as [|q1 q2 ps1'' ps2'' H1 Ho]; [split; assumption|].
  destruct Ho; [split; assumption|exact I].
Qed.

Lemma fit_all_compat y1 y2 x1 x2 window offs :
  series_equiv y1 y2 -> series_equiv x1 x2 ->
  opt_rel (Forall2 pair_equiv) (fit_all y1 x1 window offs)
    (fit_all y2 x2 window offs).
Proof.
  intros Hy Hx; induction offs as [|o offs IH]; simpl; [constructor|].
  pose proof (fit_window_compat _ _ _ _ window o Hy Hx) as Hf.
  destruct (fit_window y1 x1 window o), (fit_window y2 x2 window o);
    try contradiction; [|exact I].
  destruct (fit_all y1 x1 window offs), (fit_all y2 x2 window offs);
    try contradiction; [|exact I].
  constructor; assumption.
Qed.

Example RollingOLS_s123 :
  RollingOLS s123 s123 2 = Some [mkRow 2 0 1].
Proof. vm_compute. reflexivity. Qed.

(* ------------------------------------------------------------------ *)
(** ** Claims on [RollingOLS] *)

(** C2: row [i] of the output sits at [y]'s time stamp at position
    [window + i]; when the time stamps are distinct and [window > 0] this is
    not the time stamp [y[i + window - 1]] that ends the window. *)
Theorem RollingOLS_row_timestamp (y x : Series) (window : nat)
    (rows : list Row) (i : nat) (r : Row)
    (Hrun : RollingOLS y x window = Some rows)
    (Hrow : nth_error rows i = Some r) :
  (exists v, nth_error y (window + i)%nat = Some (row_ts r, v)) /\
  (NoDup (map fst y) -> (0 < window)%nat ->
   forall t' v', nth_error y (i + window - 1)%nat = Some (t', v') ->
   t' <> row_ts r).
Proof.
  destruct (RollingOLS_nth _ _ _ _ _ _ Hrun Hrow) as [[v Hv] _].
  split; [exists v; exact Hv|].
  intros Hnd Hw t' v' Ht' Heq; subst t'.
  assert (E1 : nth_error (map fst y) (window + i)%nat = Some (row_ts r))
    by (rewrite nth_error_map, Hv; reflexivity).
  assert (E2 : nth_error (map fst y) (i + window - 1)%nat = Some (row_ts r))
    by (rewrite nth_error_map, Ht'; reflexivity).
  rewrite NoDup_nth_error in Hnd.
  assert (Hlt : (window + i < length (map fst y))%nat)
    by (apply nth_error_Some; congruence).
  specialize (Hnd _ _ Hlt (eq_trans E1 (eq_sym E2))); lia.
Qed.

Lemma RollingOLS_row_timestamp_witness :
  exists rows r, RollingOLS s123 s123 2 = Some rows /\
    nth_error rows 0 = Some r /\
    ((exists v, nth_error s123 (2 + 0)%nat = Some (row_ts r, v)) /\
     (NoDup (map fst s123) -> (0 < 2)%nat ->
      forall t' v', nth_error s123 (0 + 2 - 1)%nat = Some (t', v') ->
      t' <> row_ts r)).
Proof.
  exists [mkRow 2 0 1], (mkRow 2 0 1).
  split; [vm_compute; reflexivity|].
  split; [reflexivity|].
  apply (RollingOLS_row_timestamp s123 s123 2 [mkRow 2 0 1] 0 (mkRow 2 0 1)).
  - vm_compute; reflexivity.
  - reflexivity.
Defined.

(** C3: a run that returns has exactly [len(y) - window] rows (so 10 rows
    for length-40 series and [window = 30]). *)
Theorem RollingOLS_length (y x : Series) (window : nat) (rows : list Row)
    (Hrun : RollingOLS y x window = Some rows) :
  length rows = (length y - window)%nat.
Proof. exact (RollingOLS_length_aux _ _ _ _ Hrun). Qed.

Lemma RollingOLS_length_witness :
  exists rows, RollingOLS y40 x40 30 = Some rows /\ length rows = 10%nat.
Proof.
  destruct (RollingOLS y40 x40 30) as [rows|] eqn:E.
  - exists rows; split; [reflexivity|].
    rewrite (RollingOLS_length y40 x40 30 rows E); vm_compute; reflexivity.
  - vm_compute in E; discriminate.
Defined.

(** C4: with [window >= len(y)] the run returns, with no row. *)
Theorem RollingOLS_empty (y x : Series) (window : nat)
    (Hw : (length y <= window)%nat) :
  RollingOLS y x window = Some [].
Proof.
  rewrite RollingOLS_unfold.
  replace (length y - window)%nat with 0%nat by lia; simpl.
  rewrite skipn_all2 by exact Hw; reflexivity.
Qed.

Lemma RollingOLS_empty_witness :
  (length s123 <= 3)%nat /\ RollingOLS s123 s123 3 = Some [].
Proof.
  split; [vm_compute; lia|].
  apply (RollingOLS_empty s123 s123 3); vm_compute; lia.
Defined.

(** C1: row [i] of a run whose window [i] has [x] values that are not all
    equal stores, in the field ['x'], the INTERCEPT of the least-squares
    line of that window, and in the field ['intercept'] its SLOPE:
    [sm.add_constant] prepends the constant column, so the parameters come
    back as [[const, x]] and are written to the columns [('x', 'intercept')]
    in that order. *)
Theorem RollingOLS_fields_swapped (y x : Series) (window : nat)
    (rows : list Row) (i : nat) (r : Row)
    (Hrun : RollingOLS y x window = Some rows)
    (Hrow : nth_error rows i = Some r)
    (Hvar : ~ (sxx (window_pairs y x window i) == 0)) :
  row_x r == ls_intercept (window_pairs y x window i) /\
  row_intercept r == ls_slope (window_pairs y x window i).
Proof. exact (RollingOLS_row_fields _ _ _ _ _ _ Hrun Hrow Hvar). Qed.

Lemma RollingOLS_fields_swapped_witness :
  exists rows r, RollingOLS s123 s123 2 = Some rows /\
    nth_error rows 0 = Some r /\
    ~ (sxx (window_pairs s123 s123 2 0) == 0) /\
    (row_x r == ls_intercept (window_pairs s123 s123 2 0) /\
     row_intercept r == ls_slope (window_pairs s123 s123 2 0)).
Proof.
  assert (Hvar : ~ (sxx (window_pairs s123 s123 2 0) == 0))
    by (intros H; vm_compute in H; discriminate H).
  exists [mkRow 2 0 1], (mkRow 2 0 1).
  split; [vm_compute; reflexivity|].
  split; [reflexivity|].
  split; [exact Hvar|].
  apply (RollingOLS_fields_swapped s123 s123 2 [mkRow 2 0 1] 0 (mkRow 2 0 1)).
  - vm_compute; reflexivity.
  - reflexivity.
  - exact Hvar.
Defined.

(** On [y = x = [1, 2, 3]] with [window = 2] the one window is fitted by
    the line of slope 1 and intercept 0, and the row reads [x = 0],
    [intercept = 1]. *)
Example RollingOLS_s123_fields :
  RollingOLS s123 s123 2 = Some [mkRow 2 0 1] /\
  ls_slope (window_pairs s123 s123 2 0) == 1 /\
  ls_intercept (window_pairs s123 s123 2 0) == 0.
Proof. vm_compute; repeat split; reflexivity. Qed.

(** C5: when [y = x] and every window has a nonzero spread, every row of
    [RollingOLS(y, y, window=5)] holds [0] in ['x'] and [1] in
    ['intercept'] (the fit's intercept 0 and slope 1, see C1). *)
Theorem RollingOLS_identical_series (y : Series)
    (Hvar : forall i, (i < length y - 5)%nat ->
            ~ (sxx (window_pairs y y 5 i) == 0)) :
  exists rows, RollingOLS y y 5 = Some rows /\
    length rows = (length y - 5)%nat /\
    Forall (fun r => row_x r == 0 /\ row_intercept r == 1) rows.
Proof.
  destruct (fit_all_ok y y 5 (seq 0 (length y - 5))) as [ps Hps].
  { intros o Ho; apply in_seq in Ho.
    destruct (fit_window_identical y 5 o) as [p0 [p1 [Hf _]]];
      [apply Hvar; lia|].
    exists (p0, p1); exact Hf. }
  assert (Hrun : RollingOLS y y 5 =
                 Some (map to_row (combine (map fst (skipn 5 y)) ps)))
    by (rewrite RollingOLS_unfold, Hps; reflexivity).
  exists (map to_row (combine (map fst (skipn 5 y)) ps)).
  split; [exact Hrun|].
  split; [exact (RollingOLS_length_aux _ _ _ _ Hrun)|].
  apply Forall_forall; intros r Hr.
  destruct (In_nth_error _ _ Hr) as [k Hk].
  destruct (RollingOLS_nth _ _ _ _ _ _ Hrun Hk) as [_ Hf].
  assert (Hklt : (k < length y - 5)%nat).
  { rewrite <- (RollingOLS_length_aux _ _ _ _ Hrun).
    apply nth_error_Some; congruence. }
  destruct (fit_window_identical y 5 k (Hvar k Hklt)) as [p0 [p1 [Hf' [H0 H1]]]].
  rewrite Hf in Hf'; injection Hf' as -> ->.
  split; assumption.
Qed.

Lemma RollingOLS_identical_series_witness :
  (forall i, (i < length y7 - 5)%nat -> ~ (sxx (window_pairs y7 y7 5 i) == 0)) /\
  exists rows, RollingOLS y7 y7 5 = Some rows /\
    length rows = (length y7 - 5)%nat /\
    Forall (fun r => row_x r == 0 /\ row_intercept r == 1) rows.
Proof.
  assert (Hvar : forall i, (i < length y7 - 5)%nat ->
                 ~ (sxx (window_pairs y7 y7 5 i) == 0)).
  { intros i Hi; vm_compute in Hi.
    destruct i as [|[|i]]; [| |lia]; intros H; vm_compute in H; discriminate H. }
  split; [exact Hvar|].
  apply (RollingOLS_identical_series y7); exact Hvar.
Defined.

Lemma rows_compat idx ps1 ps2 :
  Forall2 pair_equiv ps1 ps2 ->
  Forall2 row_equiv (map to_row (combine idx ps1)) (map to_row (combine idx ps2)).
Proof.
  intros H; revert idx.
  induction H as [|[a1 b1] [a2 b2] ps1 ps2 [H0 H1] _ IH]; intros [|t idx];
    simpl; constructor.
  - split; [reflexivity|split; assumption].
  - apply IH.
Qed.

(** C10: [RollingOLS] is a function of its inputs alone: called twice on
    equal series (the same time stamps, numerically equal values) and the
    same window, it gives the same outcome, equal row by row. *)
Theorem RollingOLS_deterministic (y1 y2 x1 x2 : Series) (window : nat)
    (Hy : series_equiv y1 y2) (Hx : series_equiv x1 x2) :
  opt_rel (Forall2 row_equiv) (RollingOLS y1 x1 window) (RollingOLS y2 x2 window).
Proof.
  rewrite !RollingOLS_unfold.
  rewrite (Forall2_length Hy).
  rewrite (Forall2_map_eq fst fst _ _ _ (fun a b H => proj1 H)
             (Forall2_skipn _ window _ _ Hy)).
  pose proof (fit_all_compat y1 y2 x1 x2 window (seq 0 (length y2 - window)) Hy Hx)
    as Hf.
  destruct (fit_all y1 x1 window _), (fit_all y2 x2 window _);
    try contradiction; [|exact I].
  apply rows_compat; exact Hf.
Qed.

Lemma RollingOLS_deterministic_witness :
  series_equiv s123 s123' /\ series_equiv s123 s123 /\
  opt_rel (Forall2 row_equiv) (RollingOLS s123 s123 2) (RollingOLS s123' s123 2).
Proof.
  assert (H1 : series_equiv s123 s123')
    by (repeat constructor; vm_compute; reflexivity).
  assert (H2 : series_equiv s123 s123)
    by (repeat constructor; vm_compute; reflexivity).
  split; [exact H1|split; [exact H2|]].
  exact (RollingOLS_deterministic s123 s123' s123 s123 2 H1 H2).
Defined.

(* ------------------------------------------------------------------ *)
(** ** The single-symbol path *)

Lemma native_shape (F : Frame) :
  map fst (columns F) = native_columns ->
  exists c1 c2 c3 c4 c5 c6 c7,
    columns F = combine native_columns [c1; c2; c3; c4; c5; c6; c7].
Proof.
  destruct F as [idx cols]; simpl; intros H.
  do 7 (destruct cols as [|[? ?] cols]; [discriminate|]).
  destruct cols; [|discriminate].
  simpl in H; injection H as -> -> -> -> -> -> ->.
  do 7 eexists; reflexivity.
Qed.

Lemma process_native (F : Frame) (fields : option Fields) :
  map fst (columns F) = native_columns ->
  exists c1 c2 c3 c4 c5,
    process_frame F fields =
    let df := mkFrame (index F)
                [("open_price", c1); ("high", c2); ("low", c3);
                 ("close_price", c4); ("volume", c5); ("price", c4)] in
    match fields with
    | Some f =>
        if fields_truthy fields then select (split_comma (join_fields f)) df
        else Some df
    | None => Some df
    end.
Proof.
  intros H; destruct (native_shape F H) as [c1 [c2 [c3 [c4 [c5 [c6 [c7 E]]]]]]].
  exists c1, c2, c3, c4, c5.
  destruct F as [idx cols]; simpl in E; subst cols.
  reflexivity.
Qed.

(* ------------------------------------------------------------------ *)
(** ** Claims on [get_pricing] *)

(** C7: for one symbol and no [fields], a provider table with the native
    columns gives exactly the six normalized columns, and the [price]
    column is the [close_price] column. *)
Theorem get_pricing_all_fields history now (s start_date : string)
    (end_date : option string) (frequency : string)
    (Hnative : map fst (columns (history (SymStr s) start_date
                 (end_date_or_now now end_date) (interval_of frequency)))
               = native_columns) :
  exists df,
    get_pricing history now (SymStr s) start_date end_date frequency None = Some df /\
    map fst (columns df) = normalized_columns /\
    get_col "price" (columns df) = get_col "close_price" (columns df) /\
    get_col "price" (columns df) <> None.
Proof.
  destruct (process_native _ None Hnative) as [c1 [c2 [c3 [c4 [c5 E]]]]].
  eexists; split; [unfold get_pricing, fetch; rewrite E; reflexivity|].
  simpl; split; [reflexivity|split; [reflexivity|discriminate]].
Qed.

Lemma get_pricing_all_fields_witness :
  map fst (columns (sample_history (SymStr "A") "1900-01-01"
                      (end_date_or_now "now" None) (interval_of "daily")))
    = native_columns /\
  exists df,
    get_pricing sample_history "now" (SymStr "A") "1900-01-01" None "daily" None
      = Some df /\
    map fst (columns df) = normalized_columns /\
    get_col "price" (columns df) = get_col "close_price" (columns df) /\
    get_col "price" (columns df) <> None.
Proof.
  assert (H : map fst (columns (sample_history (SymStr "A") "1900-01-01"
                (end_date_or_now "now" None) (interval_of "daily")))
              = native_columns) by (vm_compute; reflexivity).
  split; [exact H|].
  exact (get_pricing_all_fields sample_history "now" "A" "1900-01-01" None "daily" H).
Defined.

(** C6: with one symbol, [fields] given as the comma-separated string
    ["open_price,close_price"] projects on those two columns, but the same
    names given as a list raise a KeyError: [''.join] glues them into the
    one label ["open_priceclose_price"]. *)
Theorem get_pricing_fields_list_fails history now (s start_date : string)
    (end_date : option string) (frequency : string)
    (Hnative : map fst (columns (history (SymStr s) start_date
                 (end_date_or_now now end_date) (interval_of frequency)))
               = native_columns) :
  (exists df,
     get_pricing history now (SymStr s) start_date end_date frequency
       (Some (FStr "open_price,close_price")) = Some df /\
     map fst (columns df) = ["open_price"; "close_price"]) /\
  get_pricing history now (SymStr s) start_date end_date frequency
    (Some (FList ["open_price"; "close_price"])) = None.
Proof.
  split.
  - destruct (process_native _ (Some (FStr "open_price,close_price")) Hnative)
      as [c1 [c2 [c3 [c4 [c5 E]]]]].
    eexists; split; [unfold get_pricing, fetch; rewrite E; reflexivity|].
    reflexivity.
  - destruct (process_native _ (Some (FList ["open_price"; "close_price"])) Hnative)
      as [c1 [c2 [c3 [c4 [c5 E]]]]].
    unfold get_pricing, fetch; rewrite E; reflexivity.
Qed.

Lemma get_pricing_fields_list_fails_witness :
  map fst (columns (sample_history (SymStr "A") "1900-01-01"
                      (end_date_or_now "now" None) (interval_of "daily")))
    = native_columns /\
  (exists df,
     get_pricing sample_history "now" (SymStr "A") "1900-01-01" None "daily"
       (Some (FStr "open_price,close_price")) = Some df /\
     map fst (columns df) = ["open_price"; "close_price"]) /\
  get_pricing sample_history "now" (SymStr "A") "1900-01-01" None "daily"
    (Some (FList ["open_price"; "close_price"])) = None.
Proof.
  assert (H : map fst (columns (sample_history (SymStr "A") "1900-01-01"
                (end_date_or_now "now" None) (interval_of "daily")))
              = native_columns) by (vm_compute; reflexivity).
  split; [exact H|].
  exact (get_pricing_fields_list_fails sample_history "now" "A" "1900-01-01" None
           "daily" H).
Defined.

(** C9: a list of symbols with [fields] [None], [''] or [[]] is not fanned
    out: the whole list goes to the provider as one symbol and its table
    takes the single-symbol path. *)
Theorem get_pricing_list_without_fields history now (symbols : list string)
    (start_date : string) (end_date : option string) (frequency : string)
    (fields : option Fields)
    (Hf : fields_truthy fields = false) :
  get_pricing history now (SymList symbols) start_date end_date frequency fields =
  process_frame
    (history (SymList symbols) start_date (end_date_or_now now end_date)
       (interval_of frequency))
    fields.
Proof.
  unfold get_pricing; destruct fields as [f|]; [rewrite Hf|]; reflexivity.
Qed.

Lemma get_pricing_list_without_fields_witness :
  fields_truthy (Some (FList [])) = false /\
  get_pricing sample_history "now" (SymList ["A"; "B"]) "1900-01-01" None "daily"
    (Some (FList [])) =
  process_frame
    (sample_history (SymList ["A"; "B"]) "1900-01-01" (end_date_or_now "now" None)
       (interval_of "daily"))
    (Some (FList [])).
Proof.
  split; [reflexivity|].
  apply get_pricing_list_without_fields; reflexivity.
Defined.

(* ------------------------------------------------------------------ *)
(** ** The multi-symbol path *)

Lemma has_col_keys cols n :
  has_col cols n = existsb (fun m => String.eqb m n) (map fst cols).
Proof. induction cols as [|p cols IH]; simpl; [reflexivity|rewrite IH; reflexivity]. Qed.

Lemma set_col_keys n c df :
  map fst (columns (set_col n c df)) = add_key (map fst (columns df)) n.
Proof.
  unfold set_col, add_key; rewrite has_col_keys.
  destruct (existsb _ _); simpl.
  - rewrite map_map; apply map_ext; intros [m c0]; simpl.
    destruct (String.eqb m n); reflexivity.
  - rewrite map_app; reflexivity.
Qed.

Lemma set_col_in n c df m c' :
  In (m, c') (columns (set_col n c df)) ->
  (m = n /\ c' = c) \/ In (m, c') (columns df).
Proof.
  unfold set_col; destruct (has_col (columns df) n); simpl.
  - intros H; apply in_map_iff in H; destruct H as [[m0 c0] [Heq Hin]].
    simpl in Heq; destruct (String.eqb m0 n) eqn:E.
    + injection Heq as <- <-; left; split; [apply String.eqb_eq; exact E|reflexivity].
    + injection Heq as <- <-; right; exact Hin.
  - intros H; apply in_app_or in H; destruct H as [H|[H|[]]].
    + right; exact H.
    + injection H as <- <-; left; split; reflexivity.
Qed.

Lemma set_col_index n c df : index (set_col n c df) = index df.
Proof. unfold set_col; destruct (has_col _ _); reflexivity. Qed.

Lemma lookup_ts_in t s v : lookup_ts t s = Some v -> In (t, Some v) s.
Proof.
  induction s as [|[t' c] s IH]; simpl; [discriminate|].
  destruct (Z.eqb t' t) eqn:E.
  - intros ->; left; apply Z.eqb_eq in E; subst; reflexivity.
  - intros H; right; apply IH; exact H.
Qed.

Lemma nth_error_repeat_none {A} k n (v : A) :
  nth_error (repeat None n) k <> Some (Some v).
Proof.
  revert k; induction n as [|n IH]; intros [|k]; simpl; try discriminate.
  apply IH.
Qed.

Section Setitem.

Variables (df df' : Frame) (key : string) (s : PSeries).
Hypothesis Hset : frame_setitem df key s = Some df'.

Lemma setitem_keys :
  map fst (columns df') = add_key (map fst (columns df)) key.
Proof.
  revert Hset; unfold frame_setitem.
  destruct (is_empty (index df) && negb (is_empty s)) eqn:E0;
    repeat match goal with
    | |- context [if ?b then _ else _] => destruct b
    end; intros H; try discriminate; injection H as <-;
    rewrite set_col_keys; simpl; try rewrite map_map; try reflexivity.
Qed.

(** A present value of the assigned frame is either a value of [s] at the
    row's time stamp, or a value the column already had at that row. *)
Lemma setitem_cells m c k v :
  In (m, c) (columns df') -> nth_error c k = Some (Some v) ->
  (m = key /\ exists t, nth_error (index df') k = Some t /\ In (t, Some v) s) \/
  (In (m, c) (columns df) /\ index df' = index df).
Proof.
  revert Hset; unfold frame_setitem.
  set (df0 := if is_empty (index df) && negb (is_empty s)
              then mkFrame (map fst s)
                     (map (fun p => (fst p, repeat None (length s))) (columns df))
              else df).
  assert (Hold : forall m c, In (m, c) (columns df0) ->
            nth_error c k = Some (Some v) ->
            In (m, c) (columns df) /\ index df0 = index df).
  { intros m0 c0 Hin Hc; unfold df0 in *.
    destruct (is_empty (index df) && negb (is_empty s)).
    - simpl in Hin; apply in_map_iff in Hin; destruct Hin as [p [Hp _]].
      injection Hp as _ <-; exfalso; exact (nth_error_repeat_none _ _ _ Hc).
    - split; [exact Hin|reflexivity]. }
  assert (Hempty : is_empty (index df0) = true -> s = []).
  { unfold df0; destruct (index df) eqn:Ei, s as [|p s']; simpl;
      try reflexivity; try (rewrite Ei; discriminate); discriminate. }
  intros H.
  assert (Hvals : forall vals, Some (set_col key vals df0) = Some df' ->
            (forall t, nth_error (index df0) k = Some t -> nth_error vals k = Some (Some v) ->
                       In (t, Some v) s) ->
            (forall u, nth_error vals k = Some u -> nth_error (index df0) k <> None) ->
            In (m, c) (columns df') -> nth_error c k = Some (Some v) ->
            (m = key /\ exists t, nth_error (index df') k = Some t /\ In (t, Some v) s) \/
            (In (m, c) (columns df) /\ index df' = index df)).
  { intros vals Hs Hin Hlen Hm Hc; injection Hs as <-.
    destruct (set_col_in _ _ _ _ _ Hm) as [[-> ->]|Hm'].
    - left; split; [reflexivity|].
      rewrite set_col_index.
      destruct (nth_error (index df0) k) as [t|] eqn:Et;
        [|exfalso; exact (Hlen _ Hc eq_refl)].
      exists t; split; [reflexivity|exact (Hin t eq_refl Hc)].
    - right; rewrite set_col_index; exact (Hold _ _ Hm' Hc). }
  destruct (list_eq_dec Z.eq_dec (map fst s) (index df0)) as [Heq|Hne].
  - apply (Hvals (map snd s) H).
    + intros t Ht Hv; rewrite <- Heq, nth_error_map in Ht; rewrite nth_error_map in Hv.
      destruct (nth_error s k) as [[t' c']|] eqn:Es; [|discriminate].
      injection Ht as <-; injection Hv as ->.
      exact (nth_error_In _ _ Es).
    + intros u Hu; rewrite <- Heq, nth_error_map; rewrite nth_error_map in Hu.
      destruct (nth_error s k); [discriminate|discriminate].
  - destruct (is_empty (index df0)) eqn:Ee.
    + apply (Hvals _ H).
      * intros t _ Hv; rewrite (Hempty eq_refl) in Hv; destruct k; discriminate.
      * intros u Hu; rewrite (Hempty eq_refl) in Hu; destruct k; discriminate.
    + destruct (nodupb (map fst s)); [|discriminate].
      apply (Hvals _ H).
      * intros t Ht Hv; rewrite nth_error_map, Ht in Hv; injection Hv as Hv.
        exact (lookup_ts_in _ _ _ Hv).
      * intros u Hu; rewrite nth_error_map in Hu.
        destruct (nth_error (index df0) k); discriminate.
Qed.

End Setitem.

Section Assemble.

Variable history : PySym -> string -> string -> string -> Frame.
Variables (now start_date : string) (end_date : option string) (frequency : string).
Variable f : Fields.

Let SS := symbol_series history now start_date end_date frequency f.

Lemma assemble_inv items acc df :
  assemble history now start_date end_date frequency f acc items = Some df ->
  (forall m c k v, In (m, c) (columns acc) -> nth_error c k = Some (Some v) ->
     exists ser t, SS m = Some ser /\ nth_error (index acc) k = Some t /\
                   In (t, Some v) ser) ->
  (forall m c k v, In (m, c) (columns df) -> nth_error c k = Some (Some v) ->
     exists ser t, SS m = Some ser /\ nth_error (index df) k = Some t /\
                   In (t, Some v) ser) /\
  map fst (columns df) = fold_left add_key items (map fst (columns acc)) /\
  (forall it, In it items -> exists ser, SS it = Some ser).
Proof.
  revert acc; induction items as [|item rest IH]; intros acc H Hinv; simpl in H.
  - injection H as <-; split; [exact Hinv|split; [reflexivity|intros it []]].
  - destruct (symbol_series history now start_date end_date frequency f item)
      as [s|] eqn:Es; [|discriminate].
    destruct (frame_setitem acc item s) as [acc'|] eqn:Eacc; [|discriminate].
    destruct (IH acc' H) as [Hinv' [Hkeys Hall]].
    + intros m c k v Hm Hc.
      destruct (setitem_cells _ _ _ _ Eacc _ _ _ _ Hm Hc)
        as [[-> [t [Ht Hin]]]|[Hm' Hidx]].
      * exists s, t; split; [exact Es|split; assumption].
      * rewrite Hidx; exact (Hinv _ _ _ _ Hm' Hc).
    + split; [exact Hinv'|split].
      * rewrite Hkeys, (setitem_keys _ _ _ _ Eacc); reflexivity.
      * intros it [<-|Hit]; [exists s; exact Es|exact (Hall it Hit)].
Qed.

End Assemble.

Lemma dropna_keys df : map fst (columns (dropna df)) = map fst (columns df).
Proof. unfold dropna; simpl; rewrite map_map; reflexivity. Qed.

Lemma dropna_cell df m c' j cell :
  In (m, c') (columns (dropna df)) -> nth_error c' j = Some cell ->
  exists c k, In (m, c) (columns df) /\ row_ok df k = true /\
    cell = nth k c None /\
    nth_error (index (dropna df)) j = Some (nth k (index df) 0%Z).
Proof.
  unfold dropna; simpl; intros Hin Hc.
  apply in_map_iff in Hin; destruct Hin as [[m0 c] [Hp Hin]].
  simpl in Hp; injection Hp as <- <-.
  rewrite nth_error_map in Hc.
  destruct (nth_error (filter (row_ok df) (seq 0 (length (index df)))) j)
    as [k|] eqn:Ek; [|discriminate].
  injection Hc as <-.
  apply nth_error_In in Ek as Hk; apply filter_In in Hk; destruct Hk as [_ Hok].
  exists c, k; split; [exact Hin|split; [exact Hok|split; [reflexivity|]]].
  rewrite nth_error_map, Ek; reflexivity.
Qed.

Lemma nth_some {A} k (c : list (option A)) v :
  nth k c None = Some v -> nth_error c k = Some (Some v).
Proof.
  revert k; induction c as [|x c IH]; intros [|k]; simpl; try discriminate.
  - intros ->; reflexivity.
  - apply IH.
Qed.

Lemma dedup_keys_app items keys :
  NoDup (keys ++ items) -> fold_left add_key items keys = keys ++ items.
Proof.
  revert keys; induction items as [|a items IH]; intros keys H; simpl.
  - rewrite app_nil_r; reflexivity.
  - assert (Hna : ~ In a keys).
    { intros Ha; apply NoDup_remove_2 in H; apply H; apply in_or_app; left; exact Ha. }
    assert (Hk : add_key keys a = keys ++ [a]).
    { unfold add_key.
      destruct (existsb (fun m => String.eqb m a) keys) eqn:E; [|reflexivity].
      apply existsb_exists in E; destruct E as [m [Hm Eq]].
      apply String.eqb_eq in Eq; subst m; contradiction. }
    rewrite Hk, IH; [rewrite <- app_assoc; reflexivity|].
    rewrite <- app_assoc; exact H.
Qed.

(** Claim C8: when [symbol] is a list and [fields] is non-empty, and the call
    returns a table, every symbol was fetched on its own and its requested field
    selected; the table's columns are the symbols in order (the distinct symbols
    in order of first appearance, which is the list itself when it has no
    repetition); no cell of the table is missing; and every value at a row is
    the value of that column's own symbol at the row's time stamp. *)
Theorem get_pricing_multi history now (symbols : list string) start_date end_date
    frequency (f : Fields) (df : Frame)
    (Hf : fields_truthy (Some f) = true)
    (Hrun : get_pricing history now (SymList symbols) start_date end_date frequency
              (Some f) = Some df) :
  (forall s, In s symbols ->
     exists ser, symbol_series history now start_date end_date frequency f s = Some ser) /\
  map fst (columns df) = dedup_keys symbols /\
  (NoDup symbols -> dedup_keys symbols = symbols) /\
  (forall m c j cell, In (m, c) (columns df) -> nth_error c j = Some cell ->
     cell <> None) /\
  (forall m c j v, In (m, c) (columns df) -> nth_error c j = Some (Some v) ->
     exists ser t, symbol_series history now start_date end_date frequency f m = Some ser /\
       nth_error (index df) j = Some t /\ In (t, Some v) ser).
Proof.
  unfold get_pricing in Hrun; rewrite Hf in Hrun.
  destruct (assemble history now start_date end_date frequency f (mkFrame [] []) symbols)
    as [pre|] eqn:Ea; [|discriminate].
  injection Hrun as <-.
  destruct (assemble_inv history now start_date end_date frequency f symbols
              (mkFrame [] []) pre Ea) as [Hinv [Hkeys Hall]].
  { intros m c k v []. }
  split; [exact Hall|split; [|split; [|split]]].
  - rewrite dropna_keys, Hkeys; reflexivity.
  - intros Hnd; apply dedup_keys_app; exact Hnd.
  - intros m c' j cell Hin Hc ->.
    destruct (dropna_cell pre m c' j None Hin Hc) as [c [k [Hm [Hok [Hcell _]]]]].
    unfold row_ok in Hok; rewrite forallb_forall in Hok.
    specialize (Hok _ Hm); cbn [snd] in Hok; unfold Cell in *; rewrite <- Hcell in Hok; discriminate.
  - intros m c' j v Hin Hc.
    destruct (dropna_cell pre m c' j (Some v) Hin Hc)
      as [c [k [Hm [_ [Hcell Hidx]]]]].
    symmetry in Hcell; apply nth_some in Hcell.
    destruct (Hinv _ _ _ _ Hm Hcell) as [ser [t [Hser [Ht Hts]]]].
    exists ser, t; split; [exact Hser|split; [|exact Hts]].
    rewrite Hidx, (nth_error_nth _ _ _ Ht); reflexivity.
Qed.

Lemma get_pricing_multi_witness :
  exists df,
    get_pricing sample_history "now" (SymList ["A"; "B"]) "1900-01-01" None "daily"
      (Some (FStr "price")) = Some df /\
    index df = [3%Z] /\ map fst (columns df) = ["A"; "B"] /\
    map fst (columns df) = dedup_keys ["A"; "B"].
Proof.
  eexists; split; [reflexivity|].
  split; [reflexivity|split; [reflexivity|]].
  refine (proj1 (proj2 (get_pricing_multi sample_history "now" ["A"; "B"] "1900-01-01"
            None "daily" (FStr "price") _ eq_refl _))).
  - reflexivity.
Defined.

(* ------------------------------------------------------------------ *)
(** ** More of [RollingOLS] *)

Lemma fit_all_fail y x window offs o :
  In o offs -> fit_window y x window o = None -> fit_all y x window offs = None.
Proof.
  induction offs as [|i rest IH]; intros Ho Hf; [destruct Ho|]; simpl.
  destruct Ho as [<-|Ho]; [rewrite Hf; reflexivity|].
  destruct (fit_window y x window i); [|reflexivity].
  rewrite (IH Ho Hf); reflexivity.
Qed.

Lemma RollingOLS_fail y x window i :
  (i < length y - window)%nat -> fit_window y x window i = None ->
  RollingOLS y x window = None.
Proof.
  intros Hi Hf; rewrite RollingOLS_unfold.
  rewrite (fit_all_fail y x window _ i); [reflexivity| |exact Hf].
  apply in_seq; lia.
Qed.

Lemma fit_all_ext y1 x1 y2 x2 window offs :
  (forall o, In o offs -> fit_window y1 x1 window o = fit_window y2 x2 window o) ->
  fit_all y1 x1 window offs = fit_all y2 x2 window offs.
Proof.
  induction offs as [|i rest IH]; intros H; simpl; [reflexivity|].
  rewrite (H i (or_introl eq_refl)), IH; [reflexivity|].
  intros o Ho; apply H; right; exact Ho.
Qed.

Lemma slice_app_l {A} (l r : list A) a b :
  (b <= length l)%nat -> slice (l ++ r) a b = slice l a b.
Proof.
  intros Hb; unfold slice.
  destruct (Nat.le_gt_cases a (length l)) as [Ha|Ha].
  - rewrite skipn_app, firstn_app, length_skipn.
    replace (b - a - (length l - a))%nat with 0%nat by lia.
    simpl; rewrite app_nil_r; reflexivity.
  - replace (b - a)%nat with 0%nat by lia; reflexivity.
Qed.

Lemma slice_firstn {A} (l : list A) m a b :
  (b <= m)%nat -> slice (firstn m l) a b = slice l a b.
Proof.
  intros Hb; unfold slice.
  rewrite skipn_firstn_comm, firstn_firstn.
  f_equal; lia.
Qed.

Lemma slice_skipn {A} (l : list A) k a b :
  slice (skipn k l) a b = slice l (k + a) (k + b).
Proof.
  unfold slice; rewrite skipn_skipn.
  replace (k + b - (k + a))%nat with (b - a)%nat by lia.
  replace (a + k)%nat with (k + a)%nat by lia; reflexivity.
Qed.

Lemma slice_map {A B} (f : A -> B) l a b :
  slice (map f l) a b = map f (slice l a b).
Proof. unfold slice; rewrite skipn_map, firstn_map; reflexivity. Qed.

Lemma skipn_combine {A B} k (l : list A) (l' : list B) :
  skipn k (combine l l') = combine (skipn k l) (skipn k l').
Proof.
  revert l l'; induction k as [|k IH]; intros [|a l] [|b l']; simpl;
    try reflexivity.
  - rewrite combine_nil; reflexivity.
  - apply IH.
Qed.

Lemma fit_window_skipn y x window k i :
  fit_window (skipn k y) (skipn k x) window i = fit_window y x window (k + i).
Proof.
  unfold fit_window; rewrite !slice_skipn.
  replace (k + (i + window))%nat with (k + i + window)%nat by lia; reflexivity.
Qed.

Lemma fit_all_shift y x window k m a :
  fit_all (skipn k y) (skipn k x) window (seq a m) =
  fit_all y x window (seq (k + a) m).
Proof.
  revert a; induction m as [|m IH]; intros a; [reflexivity|].
  cbn [seq fit_all]; rewrite fit_window_skipn, IH.
  replace (k + S a)%nat with (S (k + a)) by lia; reflexivity.
Qed.

Lemma fit_all_app y x window o1 o2 ps :
  fit_all y x window (o1 ++ o2) = Some ps ->
  exists ps1 ps2, ps = ps1 ++ ps2 /\ fit_all y x window o1 = Some ps1 /\
    fit_all y x window o2 = Some ps2.
Proof.
  revert ps; induction o1 as [|i o1 IH]; intros ps H; simpl in *.
  - exists [], ps; split; [reflexivity|split; [reflexivity|exact H]].
  - destruct (fit_window y x window i) as [p|]; [|discriminate].
    destruct (fit_all y x window (o1 ++ o2)) as [ps'|] eqn:E; [|discriminate].
    injection H as <-.
    destruct (IH ps' eq_refl) as [ps1 [ps2 [-> [E1 E2]]]].
    exists (p :: ps1), ps2; rewrite E1; split; [reflexivity|split; [reflexivity|exact E2]].
Qed.

Section Transfer.

Variables (y x y' x' : Series) (window : nat).
Variable R : Q * Q -> Q * Q -> Prop.

Hypothesis Hts : map fst y' = map fst y.
Hypothesis Hfit : forall i p, (i < length y - window)%nat ->
  fit_window y x window i = Some p ->
  exists p', fit_window y' x' window i = Some p' /\ R p p'.

Lemma fit_all_transfer offs ps :
  (forall o, In o offs -> (o < length y - window)%nat) ->
  fit_all y x window offs = Some ps ->
  exists ps', fit_all y' x' window offs = Some ps' /\ Forall2 R ps ps'.
Proof.
  revert ps; induction offs as [|i rest IH]; intros ps Hin H; simpl in *.
  - injection H as <-; exists []; split; [reflexivity|constructor].
  - destruct (fit_window y x window i) as [p|] eqn:Ef; [|discriminate].
    destruct (fit_all y x window rest) as [ps0|] eqn:E; [|discriminate].
    injection H as <-.
    destruct (Hfit i p (Hin i (or_introl eq_refl)) Ef) as [p' [Ef' Hp]].
    destruct (IH ps0 (fun o Ho => Hin o (or_intror Ho)) eq_refl) as [ps0' [E' Hps]].
    exists (p' :: ps0'); rewrite Ef', E'; split; [reflexivity|constructor; assumption].
Qed.

Lemma RollingOLS_transfer rows :
  RollingOLS y x window = Some rows ->
  exists rows', RollingOLS y' x' window = Some rows' /\
    Forall2 (fun r r' => row_ts r' = row_ts r /\
      R (row_x r, row_intercept r) (row_x r', row_intercept r')) rows rows'.
Proof.
  rewrite !RollingOLS_unfold.
  assert (Hlen : length y' = length y)
    by (rewrite <- (length_map fst y'), Hts, length_map; reflexivity).
  assert (Hidx : map fst (skipn window y') = map fst (skipn window y))
    by (rewrite <- !skipn_map, Hts; reflexivity).
  rewrite Hlen, Hidx.
  destruct (fit_all y x window (seq 0 (length y - window))) as [ps|] eqn:E;
    [|discriminate].
  intros H; injection H as <-.
  destruct (fit_all_transfer _ _ (fun o Ho => proj2 (proj1 (in_seq _ 0 o) Ho)) E)
    as [ps' [E' Hps]].
  rewrite E'; eexists; split; [reflexivity|].
  generalize (map fst (skipn window y)); intros idx; clear E E'.
  revert idx; induction Hps as [|[a b] [a' b'] ps ps' Hp _ IH]; intros [|t idx];
    simpl; try constructor.
  - split; [reflexivity|exact Hp].
  - apply IH.
Qed.

End Transfer.

Lemma fit_window_some y x window i p :
  ~ (sxx (window_pairs y x window i) == 0) ->
  fit_window y x window i = Some p ->
  map fst (slice y i (i + window)) = map fst (slice x i (i + window)) /\
  safe_is_const (map snd (slice x i (i + window))) = false /\
  ols (map snd (slice y i (i + window)))
      (map (fun v => [1; v]) (map snd (slice x i (i + window)))) =
    Some [fst p; snd p].
Proof.
  intros Hs; unfold fit_window; unfold window_pairs in Hs.
  destruct (list_eq_dec Z.eq_dec _ _) as [Et|_]; [|discriminate].
  set (xs := map snd (slice x i (i + window))) in *.
  set (ys := map snd (slice y i (i + window))) in *.
  unfold add_constant.
  destruct (safe_is_const xs) eqn:Ec.
  { exfalso; apply Hs; apply safe_is_const_sxx; exact Ec. }
  assert (Hne : xs <> []) by (intros Hx; apply Hs; rewrite Hx; reflexivity).
  destruct (ols_const_design_some xs ys Hne (spread_det _ Hs)) as [b0 [b1 Hb]].
  rewrite Hb; destruct p as [p0 p1]; intros H.
  apply store_params_pair in H; destruct H as [<- <-].
  split; [exact Et|split; reflexivity].
Qed.

Lemma fit_window_build y x window i q0 q1 :
  map fst (slice y i (i + window)) = map fst (slice x i (i + window)) ->
  safe_is_const (map snd (slice x i (i + window))) = false ->
  ols (map snd (slice y i (i + window)))
      (map (fun v => [1; v]) (map snd (slice x i (i + window)))) = Some [q0; q1] ->
  fit_window y x window i = Some (q0, q1).
Proof.
  intros Et Ec Eo; unfold fit_window.
  destruct (list_eq_dec Z.eq_dec _ _) as [_|Hne]; [|contradiction].
  unfold add_constant; rewrite Ec, Eo; reflexivity.
Qed.

(** *** Sums of a window whose values are changed affinely *)

Lemma sums_affine_snd (P : list (Q * Q)) k c :
  let P' := map (fun p => (fst p, k * snd p + c)) P in
  nQ P' == nQ P /\
  sumQ (map fst P') == sumQ (map fst P) /\
  sumQ (map (fun p => fst p * fst p) P') == sumQ (map (fun p => fst p * fst p) P) /\
  sumQ (map snd P') == k * sumQ (map snd P) + c * nQ P /\
  sumQ (map (fun p => fst p * snd p) P') ==
    k * sumQ (map (fun p => fst p * snd p) P) + c * sumQ (map fst P).
Proof.
  intros P'; subst P'; induction P as [|p P IH]; simpl.
  - rewrite !nQ_nil; repeat split; ring.
  - destruct IH as [H1 [H2 [H3 [H4 H5]]]].
    rewrite !nQ_cons, H1, H2, H3, H4, H5; repeat split; ring.
Qed.

Lemma sums_affine_fst (P : list (Q * Q)) k c :
  let P' := map (fun p => (k * fst p + c, snd p)) P in
  nQ P' == nQ P /\
  sumQ (map fst P') == k * sumQ (map fst P) + c * nQ P /\
  sumQ (map (fun p => fst p * fst p) P') ==
    k * k * sumQ (map (fun p => fst p * fst p) P) + 2 * k * c * sumQ (map fst P)
    + c * c * nQ P /\
  sumQ (map snd P') == sumQ (map snd P) /\
  sumQ (map (fun p => fst p * snd p) P') ==
    k * sumQ (map (fun p => fst p * snd p) P) + c * sumQ (map snd P).
Proof.
  intros P'; subst P'; induction P as [|p P IH]; simpl.
  - rewrite !nQ_nil; repeat split; ring.
  - destruct IH as [H1 [H2 [H3 [H4 H5]]]].
    rewrite !nQ_cons, H1, H2, H3, H4, H5; repeat split; ring.
Qed.

Lemma combine_map_r {A B C} (h : B -> C) (l : list A) (l' : list B) :
  combine l (map h l') = map (fun p => (fst p, h (snd p))) (combine l l').
Proof.
  revert l'; induction l as [|a l IH]; intros [|b l']; simpl; try reflexivity.
  rewrite IH; reflexivity.
Qed.

Lemma ols_affine_y xs ys k c p0 p1 :
  ~ (sxx (combine xs ys) == 0) ->
  ols ys (map (fun v => [1; v]) xs) = Some [p0; p1] ->
  exists q0 q1,
    ols (map (fun v => k * v + c) ys) (map (fun v => [1; v]) xs) = Some [q0; q1] /\
    q0 == k * p0 + c /\ q1 == k * p1.
Proof.
  intros Hs H.
  assert (Hne : xs <> []) by (intros E; rewrite E in H; discriminate).
  pose proof (spread_det _ Hs) as Hd.
  destruct (ols_const_design xs ys p0 p1 Hne Hd H) as [H0 H1].
  destruct (sums_affine_snd (combine xs ys) k c) as [E1 [E2 [E3 [E4 E5]]]].
  assert (EP : combine xs (map (fun v => k * v + c) ys) =
                map (fun p => (fst p, k * snd p + c)) (combine xs ys))
    by (rewrite combine_map_r; reflexivity).
  rewrite <- EP in E1, E2, E3, E4, E5.
  destruct (ols_const_design_some xs (map (fun v => k * v + c) ys) Hne)
    as [q0 [q1 Hq]].
  { rewrite E1, E2, E3; exact Hd. }
  destruct (ols_const_design xs (map (fun v => k * v + c) ys) q0 q1 Hne) as [Q0 Q1];
    [rewrite E1, E2, E3; exact Hd|exact Hq|].
  rewrite E1, E2, E3, E4, E5 in Q0, Q1.
  exists q0, q1; split; [exact Hq|].
  revert Hd H0 H1 Q0 Q1.
  generalize (nQ (combine xs ys)) (sumQ (map fst (combine xs ys)))
    (sumQ (map snd (combine xs ys)))
    (sumQ (map (fun p => fst p * fst p) (combine xs ys)))
    (sumQ (map (fun p => fst p * snd p) (combine xs ys))).
  intros n Sx Sy Sxx Sxy Hd H0 H1 Q0 Q1.
  rewrite Q0, Q1, H0, H1; split; field; exact Hd.
Qed.

Lemma ols_affine_x xs ys k c p0 p1 :
  ~ (k == 0) -> ~ (sxx (combine xs ys) == 0) ->
  ols ys (map (fun v => [1; v]) xs) = Some [p0; p1] ->
  safe_is_const (map (fun v => k * v + c) xs) = false /\
  exists q0 q1,
    ols ys (map (fun v => [1; v]) (map (fun v => k * v + c) xs)) = Some [q0; q1] /\
    q0 == p0 - p1 * c / k /\ q1 == p1 / k.
Proof.
  intros Hk Hs H.
  assert (Hne : xs <> []) by (intros E; rewrite E in H; discriminate).
  assert (Hne' : map (fun v => k * v + c) xs <> [])
    by (destruct xs; [contradiction|discriminate]).
  pose proof (spread_det _ Hs) as Hd.
  destruct (ols_const_design xs ys p0 p1 Hne Hd H) as [H0 H1].
  destruct (sums_affine_fst (combine xs ys) k c) as [E1 [E2 [E3 [E4 E5]]]].
  assert (EP : combine (map (fun v => k * v + c) xs) ys =
                map (fun p => (k * fst p + c, snd p)) (combine xs ys))
    by (rewrite combine_map_l; reflexivity).
  rewrite <- EP in E1, E2, E3, E4, E5.
  set (xs' := map (fun v => k * v + c) xs) in *.
  assert (Edet :
    nQ (combine xs' ys) * sumQ (map (fun p => fst p * fst p) (combine xs' ys))
    - sumQ (map fst (combine xs' ys)) * sumQ (map fst (combine xs' ys)) ==
    k * k * (nQ (combine xs ys) * sumQ (map (fun p => fst p * fst p) (combine xs ys))
             - sumQ (map fst (combine xs ys)) * sumQ (map fst (combine xs ys)))).
  { rewrite E1, E2, E3; ring. }
  assert (Hd' : ~ (nQ (combine xs' ys) * sumQ (map (fun p => fst p * fst p) (combine xs' ys))
    - sumQ (map fst (combine xs' ys)) * sumQ (map fst (combine xs' ys)) == 0)).
  { rewrite Edet; intros Z0.
    apply Qmult_integral in Z0; destruct Z0 as [Z0|Z0]; [|contradiction].
    apply Qmult_integral in Z0; destruct Z0; contradiction. }
  split.
  - destruct (safe_is_const xs') eqn:Ec; [|reflexivity].
    exfalso; apply Hd'.
    rewrite (det_sxx (combine xs' ys) (n_nonzero (combine xs' ys) Hd')).
    rewrite (safe_is_const_sxx xs' ys Ec); ring.
  - destruct (ols_const_design_some xs' ys Hne' Hd') as [q0 [q1 Hq]].
    destruct (ols_const_design xs' ys q0 q1 Hne' Hd' Hq) as [Q0 Q1].
    rewrite Edet in Q0, Q1.
    rewrite ?E1, ?E2, ?E3, ?E4, ?E5 in Q0.
    rewrite ?E1, ?E2, ?E3, ?E4, ?E5 in Q1.
    exists q0, q1; split; [exact Hq|].
    revert Hd H0 H1 Q0 Q1.
    generalize (nQ (combine xs ys)) (sumQ (map fst (combine xs ys)))
      (sumQ (map snd (combine xs ys)))
      (sumQ (map (fun p => fst p * fst p) (combine xs ys)))
      (sumQ (map (fun p => fst p * snd p) (combine xs ys))).
    intros n Sx Sy Sxx Sxy Hd H0 H1 Q0 Q1.
    rewrite Q0, Q1, H0, H1; split; field; split; assumption.
Qed.

Lemma fit_window_affine_y y x window k c i p :
  ~ (sxx (window_pairs y x window i) == 0) ->
  fit_window y x window i = Some p ->
  exists p', fit_window (affine_series k c y) x window i = Some p' /\
    fst p' == k * fst p + c /\ snd p' == k * snd p.
Proof.
  intros Hs Hf; destruct (fit_window_some _ _ _ _ _ Hs Hf) as [Et [Ec Eo]].
  destruct (ols_affine_y _ _ k c _ _ Hs Eo) as [q0 [q1 [Eq [H0 H1]]]].
  exists (q0, q1); split; [|split; assumption].
  apply fit_window_build; [| exact Ec |].
  - unfold affine_series; rewrite slice_map, map_map; exact Et.
  - unfold affine_series; rewrite slice_map, map_map.
    rewrite map_map in Eq; exact Eq.
Qed.

Lemma fit_window_affine_x y x window k c i p :
  ~ (k == 0) -> ~ (sxx (window_pairs y x window i) == 0) ->
  fit_window y x window i = Some p ->
  exists p', fit_window y (affine_series k c x) window i = Some p' /\
    fst p' == fst p - snd p * c / k /\ snd p' == snd p / k.
Proof.
  intros Hk Hs Hf; destruct (fit_window_some _ _ _ _ _ Hs Hf) as [Et [Ec Eo]].
  destruct (ols_affine_x _ _ k c _ _ Hk Hs Eo) as [Ec' [q0 [q1 [Eq [H0 H1]]]]].
  exists (q0, q1); split; [|split; assumption].
  assert (Ex : map snd (slice (affine_series k c x) i (i + window)) =
              map (fun v => k * v + c) (map snd (slice x i (i + window))))
    by (unfold affine_series; rewrite slice_map, !map_map; reflexivity).
  apply fit_window_build; rewrite ?Ex; [|exact Ec'|exact Eq].
  unfold affine_series; rewrite slice_map, map_map; exact Et.
Qed.

Lemma affine_series_ts k c s : map fst (affine_series k c s) = map fst s.
Proof. unfold affine_series; rewrite map_map; reflexivity. Qed.

(** X1: when the time stamps of [y] and [x] differ in one window of the
    loop, the call fails: [sm.OLS] raises on endog and exog whose indices
    are not aligned. *)
Theorem RollingOLS_misaligned (y x : Series) (window i : nat)
    (Hi : (i < length y - window)%nat)
    (Hne : map fst (slice y i (i + window)) <> map fst (slice x i (i + window))) :
  RollingOLS y x window = None.
Proof.
  apply (RollingOLS_fail y x window i Hi).
  unfold fit_window.
  destruct (list_eq_dec Z.eq_dec _ _) as [E|_]; [contradiction|reflexivity].
Qed.

Lemma RollingOLS_misaligned_witness :
  (0 < length s123 - 2)%nat /\
  map fst (slice s123 0 (0 + 2)) <> map fst (slice s123_late 0 (0 + 2)) /\
  RollingOLS s123 s123_late 2 = None.
Proof.
  assert (Hi : (0 < length s123 - 2)%nat) by (vm_compute; lia).
  assert (Hne : map fst (slice s123 0 (0 + 2)) <> map fst (slice s123_late 0 (0 + 2)))
    by (intros H; vm_compute in H; discriminate H).
  split; [exact Hi|split; [exact Hne|]].
  exact (RollingOLS_misaligned s123 s123_late 2 0 Hi Hne).
Defined.

(** X2: with a nonempty window and at least one window to fit, an [x]
    with fewer than [len(y) - 1] points makes the call fail: the last
    window of [x] comes out shorter than the one of [y]. *)
Theorem RollingOLS_short_x (y x : Series) (window : nat)
    (Hw0 : (0 < window)%nat) (Hw : (window < length y)%nat)
    (Hx : (length x < length y - 1)%nat) :
  RollingOLS y x window = None.
Proof.
  apply (RollingOLS_fail y x window (length y - window - 1)); [lia|].
  unfold fit_window.
  destruct (list_eq_dec Z.eq_dec _ _) as [E|_]; [|reflexivity].
  exfalso; apply (f_equal (@length Z)) in E.
  rewrite !length_map in E; unfold slice in E.
  rewrite !length_firstn, !length_skipn in E; lia.
Qed.

Lemma RollingOLS_short_x_witness :
  (0 < 1)%nat /\ (1 < length s123)%nat /\ (length (ser [1%Q]) < length s123 - 1)%nat /\
  RollingOLS s123 (ser [1%Q]) 1 = None.
Proof.
  assert (H1 : (0 < 1)%nat) by lia.
  assert (H2 : (1 < length s123)%nat) by (vm_compute; lia).
  assert (H3 : (length (ser [1%Q]) < length s123 - 1)%nat) by (vm_compute; lia).
  split; [exact H1|split; [exact H2|split; [exact H3|]]].
  exact (RollingOLS_short_x s123 (ser [1%Q]) 1 H1 H2 H3).
Defined.

(** X3: the value of the last point of [y] is never read (only its time
    stamp is, as the index of the last row): no window reaches it. *)
Theorem RollingOLS_last_y_value (y x : Series) (window : nat) (t : Z) (v v' : Q) :
  RollingOLS (y ++ [(t, v)]) x window = RollingOLS (y ++ [(t, v')]) x window.
Proof.
  rewrite !RollingOLS_unfold.
  assert (Hl : forall p : Z * Q, length (y ++ [p]) = S (length y))
    by (intros p; rewrite length_app; simpl; lia).
  assert (Hi : forall p : Z * Q,
            map fst (skipn window (y ++ [p])) = skipn window (map fst y ++ [fst p]))
    by (intros p; rewrite <- skipn_map, map_app; reflexivity).
  rewrite !Hl, !Hi; cbn [fst].
  rewrite (fit_all_ext (y ++ [(t, v)]) x (y ++ [(t, v')]) x); [reflexivity|].
  intros o Ho; apply in_seq in Ho.
  unfold fit_window; rewrite !slice_app_l by lia; reflexivity.
Qed.

(** X4: only the first [len(y) - 1] points of [x] are read; the rest of
    [x], however long, does not change the outcome. *)
Theorem RollingOLS_x_prefix (y x : Series) (window : nat) :
  RollingOLS y x window = RollingOLS y (firstn (length y - 1) x) window.
Proof.
  rewrite !RollingOLS_unfold.
  rewrite (fit_all_ext y x y (firstn (length y - 1) x)); [reflexivity|].
  intros o Ho; apply in_seq in Ho.
  unfold fit_window; rewrite (slice_firstn x) by lia; reflexivity.
Qed.

(** X5: when the [x] values of every fitted window are not all equal,
    replacing every value [v] of [y] by [k * v + c] turns a run's rows
    into rows at the same time stamps with ['x'] becoming [k * x + c] and
    ['intercept'] becoming [k * intercept] (['x'] holds the fit's
    intercept and ['intercept'] its slope, see C1). *)
Theorem RollingOLS_affine_y (y x : Series) (window : nat) (k c : Q) (rows : list Row)
    (Hvar : forall i, (i < length y - window)%nat ->
            ~ (sxx (window_pairs y x window i) == 0))
    (Hrun : RollingOLS y x window = Some rows) :
  exists rows', RollingOLS (affine_series k c y) x window = Some rows' /\
    Forall2 (fun r r' => row_ts r' = row_ts r /\
      row_x r' == k * row_x r + c /\ row_intercept r' == k * row_intercept r)
      rows rows'.
Proof.
  destruct (RollingOLS_transfer y x (affine_series k c y) x window
              (fun p p' => fst p' == k * fst p + c /\ snd p' == k * snd p)
              (affine_series_ts k c y)
              (fun i p Hi Hf => fit_window_affine_y y x window k c i p (Hvar i Hi) Hf)
              rows Hrun)
    as [rows' [H1 H2]].
  exists rows'; split; [exact H1|].
  eapply Forall2_impl; [|exact H2].
  intros r r' [Ht [Ha Hb]]; split; [exact Ht|split; [exact Ha|exact Hb]].
Qed.

Lemma RollingOLS_affine_y_witness :
  (forall i, (i < length s123 - 2)%nat -> ~ (sxx (window_pairs s123 s123 2 i) == 0)) /\
  RollingOLS s123 s123 2 = Some [mkRow 2 0 1] /\
  exists rows', RollingOLS (affine_series 2 5 s123) s123 2 = Some rows' /\
    Forall2 (fun r r' => row_ts r' = row_ts r /\
      row_x r' == 2 * row_x r + 5 /\ row_intercept r' == 2 * row_intercept r)
      [mkRow 2 0 1] rows'.
Proof.
  assert (Hvar : forall i, (i < length s123 - 2)%nat ->
                 ~ (sxx (window_pairs s123 s123 2 i) == 0)).
  { intros i Hi; vm_compute in Hi.
    destruct i as [|i]; [|lia]; intros H; vm_compute in H; discriminate H. }
  assert (H : RollingOLS s123 s123 2 = Some [mkRow 2 0 1]) by (vm_compute; reflexivity).
  split; [exact Hvar|split; [exact H|]].
  exact (RollingOLS_affine_y s123 s123 2 2 5 [mkRow 2 0 1] Hvar H).
Defined.

(** X6: when the [x] values of every fitted window are not all equal,
    replacing every value [v] of [x] by [k * v + c] with [k <> 0] turns a
    run's rows into rows at the same time stamps with ['intercept'] (the
    slope) divided by [k] and ['x'] (the intercept) lowered by
    [intercept * c / k]. *)
Theorem RollingOLS_affine_x (y x : Series) (window : nat) (k c : Q) (rows : list Row)
    (Hk : ~ (k == 0))
    (Hvar : forall i, (i < length y - window)%nat ->
            ~ (sxx (window_pairs y x window i) == 0))
    (Hrun : RollingOLS y x window = Some rows) :
  exists rows', RollingOLS y (affine_series k c x) window = Some rows' /\
    Forall2 (fun r r' => row_ts r' = row_ts r /\
      row_x r' == row_x r - row_intercept r * c / k /\
      row_intercept r' == row_intercept r / k)
      rows rows'.
Proof.
  destruct (RollingOLS_transfer y x y (affine_series k c x) window
              (fun p p' => fst p' == fst p - snd p * c / k /\ snd p' == snd p / k)
              eq_refl
              (fun i p Hi Hf => fit_window_affine_x y x window k c i p Hk (Hvar i Hi) Hf)
              rows Hrun)
    as [rows' [H1 H2]].
  exists rows'; split; [exact H1|].
  eapply Forall2_impl; [|exact H2].
  intros r r' [Ht [Ha Hb]]; split; [exact Ht|split; [exact Ha|exact Hb]].
Qed.

Lemma RollingOLS_affine_x_witness :
  ~ (2 == 0) /\
  (forall i, (i < length s123 - 2)%nat -> ~ (sxx (window_pairs s123 s123 2 i) == 0)) /\
  RollingOLS s123 s123 2 = Some [mkRow 2 0 1] /\
  exists rows', RollingOLS s123 (affine_series 2 5 s123) 2 = Some rows' /\
    Forall2 (fun r r' => row_ts r' = row_ts r /\
      row_x r' == row_x r - row_intercept r * 5 / 2 /\
      row_intercept r' == row_intercept r / 2)
      [mkRow 2 0 1] rows'.
Proof.
  assert (Hk : ~ (2 == 0)) by discriminate.
  assert (Hvar : forall i, (i < length s123 - 2)%nat ->
                 ~ (sxx (window_pairs s123 s123 2 i) == 0)).
  { intros i Hi; vm_compute in Hi.
    destruct i as [|i]; [|lia]; intros H; vm_compute in H; discriminate H. }
  assert (H : RollingOLS s123 s123 2 = Some [mkRow 2 0 1]) by (vm_compute; reflexivity).
  split; [exact Hk|split; [exact Hvar|split; [exact H|]]].
  exact (RollingOLS_affine_x s123 s123 2 2 5 [mkRow 2 0 1] Hk Hvar H).
Defined.

(** X7: dropping the first [k] points of both [y] and [x] drops the first
    [k] rows of a run and leaves the others unchanged: each row depends
    only on its own window. *)
Theorem RollingOLS_drop_prefix (y x : Series) (window k : nat) (rows : list Row)
    (Hrun : RollingOLS y x window = Some rows) :
  RollingOLS (skipn k y) (skipn k x) window = Some (skipn k rows).
Proof.
  rewrite RollingOLS_unfold in Hrun |- *.
  destruct (fit_all y x window (seq 0 (length y - window))) as [ps|] eqn:E;
    [|discriminate].
  injection Hrun as <-.
  rewrite length_skipn.
  destruct (Nat.le_gt_cases k (length y - window)) as [Hk|Hk].
  - replace (length y - window)%nat with (k + (length y - k - window))%nat in E by lia.
    rewrite seq_app in E.
    destruct (fit_all_app _ _ _ _ _ _ E) as [ps1 [ps2 [-> [E1 E2]]]].
    rewrite (fit_all_shift y x window k _ 0), Nat.add_0_r.
    cbn [Nat.add] in E2; rewrite E2.
    apply fit_all_length in E1; rewrite length_seq in E1.
    rewrite !skipn_map, skipn_combine, !skipn_map, !skipn_skipn.
    rewrite skipn_app, (skipn_all2 ps1) by lia.
    replace (k - length ps1)%nat with 0%nat by lia.
    rewrite (Nat.add_comm window k); reflexivity.
  - replace (length y - k - window)%nat with 0%nat by lia; simpl.
    rewrite combine_nil, skipn_all2; [reflexivity|].
    rewrite length_map, length_combine, (fit_all_length _ _ _ _ _ E), length_seq; lia.
Qed.

Lemma RollingOLS_drop_prefix_witness :
  exists rows, RollingOLS y40 x40 30 = Some rows /\
    RollingOLS (skipn 4 y40) (skipn 4 x40) 30 = Some (skipn 4 rows).
Proof.
  destruct (RollingOLS y40 x40 30) as [rows|] eqn:E.
  - exists rows; split; [reflexivity|].
    exact (RollingOLS_drop_prefix y40 x40 30 4 rows E).
  - vm_compute in E; discriminate.
Defined.

(** *** Windows whose [x] values are all equal *)

Lemma sum_xy_const (P : list (Q * Q)) c :
  (forall p, In p P -> fst p == c) ->
  sumQ (map (fun p => fst p * snd p) P) == c * sumQ (map snd P).
Proof.
  induction P as [|p P IH]; intros H; simpl; [ring|].
  rewrite (H p (or_introl eq_refl)), IH by (intros q Hq; apply H; right; exact Hq); ring.
Qed.

Lemma in_combine_exists {A B} (xs : list A) (ys : list B) v :
  length xs = length ys -> In v xs -> exists w, In (v, w) (combine xs ys).
Proof.
  revert ys; induction xs as [|u xs IH]; intros [|w ys] Hl Hv; simpl in *;
    try discriminate; [destruct Hv|].
  destruct Hv as [<-|Hv]; [exists w; left; reflexivity|].
  destruct (IH ys ltac:(lia) Hv) as [w' Hw']; exists w'; right; exact Hw'.
Qed.

(** The solver on the one-column design that [add_constant] leaves when
    [x] is a nonzero constant. *)
Lemma ols_one_col_eq xs ys v0 xs' :
  xs = v0 :: xs' ->
  ols ys (map (fun v => [v]) xs) =
  Some [gram (map (fun v => [v]) xs) ys (fun p => col 0 (fst p)) (fun p => snd p) /
        gram (map (fun v => [v]) xs) ys (fun p => col 0 (fst p)) (fun p => col 0 (fst p))].
Proof. intros ->; reflexivity. Qed.

Lemma gram_one_col_ay xs ys :
  gram (map (fun v => [v]) xs) ys (fun p => col 0 (fst p)) (fun p => snd p) ==
  sumQ (map (fun p => fst p * snd p) (combine xs ys)).
Proof.
  unfold gram; rewrite combine_map_l, map_map.
  apply sumQ_ext; intros; unfold col; simpl; ring.
Qed.

Lemma gram_one_col_aa xs ys :
  gram (map (fun v => [v]) xs) ys (fun p => col 0 (fst p)) (fun p => col 0 (fst p)) ==
  sumQ (map (fun p => fst p * fst p) (combine xs ys)).
Proof.
  unfold gram; rewrite combine_map_l, map_map.
  apply sumQ_ext; intros; unfold col; simpl; ring.
Qed.

Lemma fit_const_x xs ys c ps p0 p1 :
  length xs = length ys ->
  (forall v, In v xs -> v == c) ->
  ols ys (add_constant xs) = Some ps ->
  store_params ps = Some (p0, p1) ->
  (~ (c == 0) -> p0 == mean_y (combine xs ys) / c /\ p1 == mean_y (combine xs ys) / c) /\
  (c == 0 -> p0 == mean_y (combine xs ys) /\ p1 == 0).
Proof.
  intros Hl Hx.
  assert (Hp : forall p, In p (combine xs ys) -> fst p == c).
  { intros [v w] Hp; apply in_combine_l in Hp; exact (Hx v Hp). }
  destruct (sums_const _ _ Hp) as [Hsx Hsxx].
  pose proof (sum_xy_const _ _ Hp) as Hsxy.
  destruct xs as [|v0 xs'] eqn:Exs; [discriminate|].
  assert (Hn : ~ (nQ (combine xs ys) == 0)).
  { subst xs; destruct ys as [|w ys]; [discriminate|].
    intros H; apply nQ_zero in H; discriminate H. }
  rewrite <- Exs in *.
  destruct (Qeq_dec c 0) as [Hc0|Hc0].
  - (* all [x] are zero: the design [[1; 0]] has rank one *)
    assert (Hs : safe_is_const xs = false).
    { rewrite Exs; cbn [safe_is_const].
      destruct (existsb _ _) eqn:E; [|apply andb_false_r].
      apply existsb_exists in E; destruct E as [w [Hw E]].
      rewrite <- Exs in Hw.
      assert (Hw0 : Qeq_bool w 0 = true)
        by (apply Qeq_bool_iff; rewrite (Hx w Hw); exact Hc0).
      rewrite Hw0 in E; discriminate E. }
    unfold add_constant; rewrite Hs, (ols_const_design_eq xs ys v0 xs' Exs); cbv zeta.
    match goal with
    | |- context [Qeq_bool ?d 0] => destruct (Qeq_bool d 0) eqn:Ed
    end.
    + intros H Hst; injection H as <-; injection Hst as <- <-.
      split; [intros H; contradiction|intros _].
      rewrite gram_aa, gram_bb, gram_ay, gram_by, Hsxx, Hsxy, Hc0.
      unfold mean_y; split; [|unfold Qdiv; ring].
      apply Qdiv_comp; [reflexivity|ring].
    + exfalso; apply Qeq_bool_neq in Ed; apply Ed.
      rewrite gram_aa, gram_ab, gram_bb, Hsx, Hsxx, Hc0; ring.
  - (* a nonzero constant: the design keeps the one column [x] *)
    assert (Hs : safe_is_const xs = true).
    { rewrite Exs; cbn [safe_is_const]; apply andb_true_intro; split.
      - apply forallb_forall; intros w Hw; apply Qeq_bool_iff.
        rewrite (Hx w (ltac:(rewrite Exs; right; exact Hw))),
                (Hx v0 (ltac:(rewrite Exs; left; reflexivity))); reflexivity.
      - apply existsb_exists; exists v0; split; [left; reflexivity|].
        destruct (Qeq_bool v0 0) eqn:E; [|reflexivity].
        apply Qeq_bool_iff in E; exfalso; apply Hc0.
        rewrite <- (Hx v0 (ltac:(rewrite Exs; left; reflexivity))); exact E. }
    unfold add_constant; rewrite Hs, (ols_one_col_eq xs ys v0 xs' Exs).
    intros H Hst; injection H as <-; injection Hst as <- <-.
    split; [intros _|intros H; contradiction].
    rewrite gram_one_col_ay, gram_one_col_aa, Hsxy, Hsxx.
    unfold mean_y; split; field; split; assumption.
Qed.

Lemma fit_window_const_x y x window i c p0 p1 :
  (forall p, In p (window_pairs y x window i) -> fst p == c) ->
  fit_window y x window i = Some (p0, p1) ->
  (~ (c == 0) -> p0 == mean_y (window_pairs y x window i) / c /\
                 p1 == mean_y (window_pairs y x window i) / c) /\
  (c == 0 -> p0 == mean_y (window_pairs y x window i) /\ p1 == 0).
Proof.
  intros Hc; unfold fit_window, window_pairs in *.
  destruct (list_eq_dec Z.eq_dec _ _) as [Ht|_]; [|discriminate].
  assert (Hl : length (map snd (slice x i (i + window))) =
               length (map snd (slice y i (i + window)))).
  { rewrite !length_map, <- (length_map fst (slice x _ _)),
            <- (length_map fst (slice y _ _)), Ht; reflexivity. }
  destruct (ols _ _) as [ps|] eqn:Eo; [|discriminate].
  apply (fit_const_x _ _ c ps p0 p1 Hl); [|exact Eo].
  intros v Hv; destruct (in_combine_exists _ _ v Hl Hv) as [w Hw].
  exact (Hc _ Hw).
Qed.

(** X15: a window whose [x] values are all one constant [c] is fitted
    without a spread.  For [c <> 0], [add_constant] keeps the single
    column [x], the fit has one parameter [mean(y) / c], and pandas
    broadcasts it into both fields of the row.  For [c = 0], the design
    [[1; 0]] has rank one and the pseudo-inverse solution puts [mean(y)]
    in ['x'] and [0] in ['intercept']. *)
Theorem RollingOLS_constant_x (y x : Series) (window : nat) (rows : list Row)
    (i : nat) (r : Row) (c : Q)
    (Hrun : RollingOLS y x window = Some rows)
    (Hrow : nth_error rows i = Some r)
    (Hc : forall p, In p (window_pairs y x window i) -> fst p == c) :
  (~ (c == 0) ->
   row_x r == mean_y (window_pairs y x window i) / c /\
   row_intercept r == mean_y (window_pairs y x window i) / c) /\
  (c == 0 ->
   row_x r == mean_y (window_pairs y x window i) /\ row_intercept r == 0).
Proof.
  destruct (RollingOLS_nth _ _ _ _ _ _ Hrun Hrow) as [_ Hf].
  exact (fit_window_const_x _ _ _ _ _ _ _ Hc Hf).
Qed.

Lemma RollingOLS_constant_x_witness :
  RollingOLS (ser [1; 2; 5; 4]) (ser [3; 3; 3; 3]) 2 =
    Some [mkRow 2 (9 # 18) (9 # 18); mkRow 3 (21 # 18) (21 # 18)] /\
  nth_error [mkRow 2 (9 # 18) (9 # 18); mkRow 3 (21 # 18) (21 # 18)] 0 =
    Some (mkRow 2 (9 # 18) (9 # 18)) /\
  (forall p, In p (window_pairs (ser [1; 2; 5; 4]) (ser [3; 3; 3; 3]) 2 0) -> fst p == 3) /\
  ((~ (3 == 0) ->
    row_x (mkRow 2 (9 # 18) (9 # 18)) ==
      mean_y (window_pairs (ser [1; 2; 5; 4]) (ser [3; 3; 3; 3]) 2 0) / 3 /\
    row_intercept (mkRow 2 (9 # 18) (9 # 18)) ==
      mean_y (window_pairs (ser [1; 2; 5; 4]) (ser [3; 3; 3; 3]) 2 0) / 3) /\
   (3 == 0 ->
    row_x (mkRow 2 (9 # 18) (9 # 18)) ==
      mean_y (window_pairs (ser [1; 2; 5; 4]) (ser [3; 3; 3; 3]) 2 0) /\
    row_intercept (mkRow 2 (9 # 18) (9 # 18)) == 0)).
Proof.
  assert (Hrun : RollingOLS (ser [1; 2; 5; 4]) (ser [3; 3; 3; 3]) 2 =
    Some [mkRow 2 (9 # 18) (9 # 18); mkRow 3 (21 # 18) (21 # 18)])
    by (vm_compute; reflexivity).
  assert (Hrow : nth_error [mkRow 2 (9 # 18) (9 # 18); mkRow 3 (21 # 18) (21 # 18)] 0 =
    Some (mkRow 2 (9 # 18) (9 # 18))) by reflexivity.
  assert (Hc : forall p, In p (window_pairs (ser [1; 2; 5; 4]) (ser [3; 3; 3; 3]) 2 0) ->
                 fst p == 3).
  { intros p Hp; vm_compute in Hp.
    destruct Hp as [<-|[<-|[]]]; reflexivity. }
  split; [exact Hrun|split; [exact Hrow|split; [exact Hc|]]].
  exact (RollingOLS_constant_x _ _ 2 _ 0 _ 3 Hrun Hrow Hc).
Defined.

(* ------------------------------------------------------------------ *)
(** ** More of the single-symbol path *)

Lemma has_col_in cols n : has_col cols n = true <-> In n (map fst cols).
Proof.
  rewrite has_col_keys, existsb_exists; split.
  - intros [m [Hm E]]; apply String.eqb_eq in E; subst m; exact Hm.
  - intros H; exists n; split; [exact H|apply String.eqb_refl].
Qed.

Lemma get_col_none n cols : get_col n cols = None <-> ~ In n (map fst cols).
Proof.
  induction cols as [|[m c] cols IH]; simpl; [tauto|].
  destruct (String.eqb_spec m n) as [<-|Hne].
  - split; [discriminate|intros H; exfalso; apply H; left; reflexivity].
  - rewrite IH; split; [intros H [E|E]; [contradiction|exact (H E)]|tauto].
Qed.

Lemma get_col_set_col_same n c df : get_col n (columns (set_col n c df)) = Some c.
Proof.
  unfold set_col; destruct (has_col (columns df) n) eqn:Eh; simpl.
  - apply has_col_in in Eh.
    induction (columns df) as [|[m c'] cols IH]; simpl in *; [contradiction|].
    destruct (String.eqb_spec m n) as [<-|Hne]; simpl.
    + rewrite String.eqb_refl; reflexivity.
    + apply String.eqb_neq in Hne; rewrite Hne.
      destruct Eh as [E|Eh]; [apply String.eqb_neq in Hne; contradiction|].
      exact (IH Eh).
  - assert (Hn : get_col n (columns df) = None).
    { apply get_col_none; intros H; apply has_col_in in H; congruence. }
    clear Eh; induction (columns df) as [|[m c'] cols IH]; simpl in *.
    + rewrite String.eqb_refl; reflexivity.
    + destruct (String.eqb m n); [discriminate|exact (IH Hn)].
Qed.

Lemma get_col_set_col_other n m c df :
  m <> n -> get_col m (columns (set_col n c df)) = get_col m (columns df).
Proof.
  intros Hmn; unfold set_col; destruct (has_col (columns df) n); simpl.
  - induction (columns df) as [|[l c'] cols IH]; simpl; [reflexivity|].
    destruct (String.eqb_spec l n) as [<-|_]; simpl.
    + destruct (String.eqb_spec l m) as [<-|_]; [contradiction|exact IH].
    + destruct (String.eqb l m); [reflexivity|exact IH].
  - induction (columns df) as [|[l c'] cols IH]; simpl.
    + apply String.eqb_neq in Hmn; rewrite String.eqb_sym, Hmn; reflexivity.
    + destruct (String.eqb l m); [reflexivity|exact IH].
Qed.

(** The label [df.rename(columns=...)] gives to a provider label. *)
Lemma rename_keys df :
  map fst (columns (rename_cols rename_map df)) =
  map (rename_label rename_map)
    (map fst (columns df)).
Proof. unfold rename_cols; simpl; rewrite !map_map; reflexivity. Qed.

Ltac rename_cases :=
  unfold rename_label, rename_map; cbn [assoc_str];
  repeat match goal with
         | |- context [String.eqb ?a ?b] => destruct (String.eqb_spec a b) as [<-|?]
         end;
  intuition congruence.

Lemma rename_to_dividends l :
  rename_label rename_map l = "Dividends"
  <-> l = "Dividends".
Proof. rename_cases. Qed.

Lemma rename_to_splits l :
  rename_label rename_map l = "Stock Splits"
  <-> l = "Stock Splits".
Proof. rename_cases. Qed.

Lemma in_renamed (P : string -> Prop) L n :
  (forall l, rename_label rename_map l = n
             <-> P l) ->
  In n (map (rename_label rename_map) L)
  <-> exists l, In l L /\ P l.
Proof.
  intros HP; rewrite in_map_iff; split.
  - intros [l [E Hl]]; exists l; split; [exact Hl|apply HP; exact E].
  - intros [l [Hl Pl]]; exists l; split; [apply HP; exact Pl|exact Hl].
Qed.

Lemma renamed_dividends L :
  In "Dividends" (map (rename_label rename_map) L)
  <-> In "Dividends" L.
Proof.
  rewrite (in_renamed (fun l => l = "Dividends") L "Dividends" rename_to_dividends).
  split; [intros [l [Hl ->]]; exact Hl|intros H; exists "Dividends"; split; [exact H|reflexivity]].
Qed.

Lemma renamed_splits L :
  In "Stock Splits" (map (rename_label rename_map) L)
  <-> In "Stock Splits" L.
Proof.
  rewrite (in_renamed (fun l => l = "Stock Splits") L "Stock Splits" rename_to_splits).
  split; [intros [l [Hl ->]]; exact Hl|intros H; exists "Stock Splits"; split; [exact H|reflexivity]].
Qed.

Lemma drop_cols_some names df out :
  drop_cols names df = Some out ->
  (forall n, In n names -> In n (map fst (columns df))) /\
  out = mkFrame (index df)
          (filter (fun p => negb (existsb (String.eqb (fst p)) names)) (columns df)).
Proof.
  unfold drop_cols; destruct (forallb _ _) eqn:E; [|discriminate].
  intros H; injection H as <-; split; [|reflexivity].
  intros n Hn; rewrite forallb_forall in E; apply has_col_in; exact (E n Hn).
Qed.

Lemma drop_cols_ok names df :
  (forall n, In n names -> In n (map fst (columns df))) ->
  drop_cols names df = Some (mkFrame (index df)
          (filter (fun p => negb (existsb (String.eqb (fst p)) names)) (columns df))).
Proof.
  intros H; unfold drop_cols.
  replace (forallb (has_col (columns df)) names) with true; [reflexivity|].
  symmetry; apply forallb_forall; intros n Hn; apply has_col_in; exact (H n Hn).
Qed.

Lemma in_fst_iff n (cols : list (string * list Cell)) :
  In n (map fst cols) <-> exists c, In (n, c) cols.
Proof.
  rewrite in_map_iff; split.
  - intros [[m c] [E Hin]]; simpl in E; subst m; exists c; exact Hin.
  - intros [c Hc]; exists (n, c); split; [reflexivity|exact Hc].
Qed.

Lemma has_col_filter cols n :
  has_col cols n = negb (is_empty (filter (labelled n) cols)).
Proof.
  unfold has_col, labelled; induction cols as [|[m c] cols IH]; simpl; [reflexivity|].
  destruct (String.eqb m n); [reflexivity|exact IH].
Qed.

Lemma filter_labelled_absent n cols :
  ~ In n (map fst cols) -> filter (labelled n) cols = [].
Proof.
  unfold labelled; induction cols as [|[m c] cols IH]; simpl; [reflexivity|].
  intros H; destruct (String.eqb_spec m n) as [->|_]; [exfalso; apply H; left; reflexivity|].
  apply IH; intros H'; apply H; right; exact H'.
Qed.

Lemma in_filter_labelled n m c cols :
  In (m, c) (filter (labelled n) cols) -> m = n /\ In (m, c) cols.
Proof.
  intros H; apply filter_In in H; destruct H as [H E].
  unfold labelled in E; simpl in E; apply String.eqb_eq in E.
  split; [exact E|exact H].
Qed.

Lemma df_col_length n cols :
  length (df_col n cols) = length (filter (fun l => String.eqb l n) (map fst cols)).
Proof.
  unfold df_col, labelled; rewrite length_map.
  induction cols as [|[m c] cols IH]; simpl; [reflexivity|].
  destruct (String.eqb m n); simpl; rewrite ?IH; reflexivity.
Qed.

Lemma df_col_absent n cols : ~ In n (map fst cols) -> df_col n cols = [].
Proof. intros H; unfold df_col; rewrite (filter_labelled_absent n cols H); reflexivity. Qed.

Lemma get_col_df_col n cols : get_col n cols = hd_error (df_col n cols).
Proof.
  unfold df_col, labelled; induction cols as [|[m c] cols IH]; simpl; [reflexivity|].
  destruct (String.eqb m n); [reflexivity|exact IH].
Qed.

Lemma get_col_nodup n c cols :
  NoDup (map fst cols) -> In (n, c) cols -> get_col n cols = Some c.
Proof.
  induction cols as [|[m c'] cols IH]; simpl; [intros _ []|].
  intros Hnd Hin; inversion Hnd as [|? ? Hm Hnd']; subst.
  destruct Hin as [E|Hin].
  - injection E as -> ->; rewrite String.eqb_refl; reflexivity.
  - destruct (String.eqb_spec m n) as [->|_]; [|exact (IH Hnd' Hin)].
    exfalso; apply Hm; exact (in_map fst _ _ Hin).
Qed.

(** The labels of the provider's table once renamed and stripped of the
    dropped columns. *)
Lemma dropped_keys names df :
  map fst (filter (fun p => negb (existsb (String.eqb (fst p)) names))
             (columns (rename_cols rename_map df))) =
  filter (fun l => negb (existsb (String.eqb l) names))
    (map (rename_label rename_map) (map fst (columns df))).
Proof.
  unfold rename_cols; cbn [columns].
  induction (columns df) as [|[m c] cols IH]; cbn [map filter fst snd]; [reflexivity|].
  destruct (negb _); cbn [map]; rewrite IH; reflexivity.
Qed.

Ltac label_cases :=
  unfold rename_label, rename_map; cbn [assoc_str];
  repeat match goal with
         | |- context [String.eqb ?a ?b] =>
             let E := fresh "E" in
             destruct (String.eqb_spec a b) as [E|E]; [subst|]
         end;
  rewrite ?andb_false_r; try reflexivity; try congruence.

Lemma close_label l :
  negb (existsb (String.eqb (rename_label rename_map l)) ["Dividends"; "Stock Splits"]) &&
  String.eqb (rename_label rename_map l) "close_price" =
  String.eqb l "Close" || String.eqb l "close_price".
Proof. label_cases. Qed.

Lemma price_label l :
  negb (existsb (String.eqb (rename_label rename_map l)) ["Dividends"; "Stock Splits"]) &&
  String.eqb (rename_label rename_map l) "price" = String.eqb l "price".
Proof. label_cases. Qed.

Lemma count_renamed n (P : string -> bool) L :
  (forall l, negb (existsb (String.eqb (rename_label rename_map l))
                     ["Dividends"; "Stock Splits"]) &&
             String.eqb (rename_label rename_map l) n = P l) ->
  length (filter (fun l => String.eqb l n)
            (filter (fun l => negb (existsb (String.eqb l) ["Dividends"; "Stock Splits"]))
               (map (rename_label rename_map) L))) = length (filter P L).
Proof.
  intros H; induction L as [|l L IH]; cbn [map filter]; [reflexivity|].
  rewrite <- (H l).
  destruct (negb (existsb _ _)); cbn [andb filter];
    [destruct (String.eqb _ n); cbn [length]; rewrite IH; reflexivity|exact IH].
Qed.

Lemma set_cols_pos_other n m vs cols :
  m <> n -> get_col m (set_cols_pos n vs cols) = get_col m cols.
Proof.
  intros Hmn; revert vs; induction cols as [|[l c] cols IH]; intros vs; simpl; [reflexivity|].
  destruct (String.eqb_spec l n) as [->|_].
  - destruct vs as [|v vs]; simpl;
      (destruct (String.eqb_spec n m) as [->|_]; [contradiction|apply IH]).
  - simpl; destruct (String.eqb l m); [reflexivity|apply IH].
Qed.

Lemma set_cols_pos_same n v vs cols :
  df_col n cols <> [] -> get_col n (set_cols_pos n (v :: vs) cols) = Some v.
Proof.
  unfold df_col, labelled; induction cols as [|[l c] cols IH]; simpl; [contradiction|].
  destruct (String.eqb_spec l n) as [->|Hne]; simpl.
  - intros _; rewrite String.eqb_refl; reflexivity.
  - apply String.eqb_neq in Hne; rewrite Hne; exact IH.
Qed.

Lemma set_price_some df out :
  set_price df = Some out ->
  length (df_col "close_price" (columns df)) = 1%nat \/
  (2 <= length (df_col "close_price" (columns df)) /\
   length (df_col "price" (columns df)) = length (df_col "close_price" (columns df)))%nat.
Proof.
  unfold set_price; destruct (df_col "close_price" (columns df)) as [|c1 [|c2 cs]].
  - discriminate.
  - intros _; left; reflexivity.
  - destruct (Nat.eqb_spec (length (df_col "price" (columns df)))
                (length (c1 :: c2 :: cs))) as [E|_]; [|discriminate].
    intros _; right; split; [simpl; lia|exact E].
Qed.

Lemma set_price_ok df :
  (length (df_col "close_price" (columns df)) = 1 \/
   (2 <= length (df_col "close_price" (columns df)) /\
    length (df_col "price" (columns df)) = length (df_col "close_price" (columns df))))%nat ->
  set_price df <> None.
Proof.
  unfold set_price; destruct (df_col "close_price" (columns df)) as [|c1 [|c2 cs]].
  - simpl; lia.
  - intros _; discriminate.
  - intros [H|[_ H]]; [simpl in H; lia|].
    rewrite H, Nat.eqb_refl; discriminate.
Qed.

Lemma set_price_index df out : set_price df = Some out -> index out = index df.
Proof.
  unfold set_price; destruct (df_col "close_price" (columns df)) as [|c1 [|c2 cs]].
  - discriminate.
  - intros H; injection H as <-; apply set_col_index.
  - destruct (Nat.eqb _ _); [|discriminate].
    intros H; injection H as <-; reflexivity.
Qed.

Lemma set_price_price df out :
  set_price df = Some out ->
  get_col "price" (columns out) = get_col "close_price" (columns out) /\
  get_col "price" (columns out) <> None.
Proof.
  unfold set_price.
  pose proof (get_col_df_col "close_price" (columns df)) as Hc.
  destruct (df_col "close_price" (columns df)) as [|c1 [|c2 cs]].
  - discriminate.
  - intros H; injection H as <-.
    rewrite get_col_set_col_same, get_col_set_col_other by discriminate.
    rewrite Hc; split; [reflexivity|discriminate].
  - destruct (Nat.eqb_spec (length (df_col "price" (columns df)))
                (length (c1 :: c2 :: cs))) as [E|_]; [|discriminate].
    intros H; injection H as <-; cbn [columns].
    rewrite set_cols_pos_same, set_cols_pos_other, Hc by
      (try discriminate; intros Hn; rewrite Hn in E; discriminate E).
    split; [reflexivity|discriminate].
Qed.

Lemma process_frame_needs df fields out :
  process_frame df fields = Some out -> provider_ok (map fst (columns df)).
Proof.
  unfold process_frame.
  destruct (drop_cols _ _) as [df1|] eqn:Ed; [|discriminate].
  destruct (set_price df1) as [df2|] eqn:Ep; [|discriminate].
  intros _.
  destruct (drop_cols_some _ _ _ Ed) as [Hn ->].
  rewrite rename_keys in Hn.
  split; [apply renamed_dividends, Hn; simpl; auto|].
  split; [apply renamed_splits, Hn; simpl; auto|].
  unfold close_count, price_count.
  rewrite <- (count_renamed "close_price" _ _ close_label).
  rewrite <- (count_renamed "price" _ _ price_label).
  rewrite <- !dropped_keys, <- !df_col_length.
  exact (set_price_some _ _ Ep).
Qed.

Lemma process_frame_enough df :
  provider_ok (map fst (columns df)) -> process_frame df None <> None.
Proof.
  intros [Hd [Hs Hc]]; unfold process_frame.
  rewrite drop_cols_ok.
  - destruct (set_price _) eqn:Ep; [discriminate|].
    exfalso; revert Ep; apply set_price_ok; cbn [columns].
    rewrite !df_col_length, !dropped_keys.
    rewrite (count_renamed "close_price" _ _ close_label).
    rewrite (count_renamed "price" _ _ price_label).
    exact Hc.
  - rewrite rename_keys; intros n [<-|[<-|[]]].
    + apply renamed_dividends; exact Hd.
    + apply renamed_splits; exact Hs.
Qed.

Lemma select_cols_eq names df :
  select_cols names df =
  if forallb (has_col (columns df)) names
  then Some (flat_map (fun n => filter (labelled n) (columns df)) names)
  else None.
Proof.
  induction names as [|n names IH]; simpl; [reflexivity|].
  rewrite has_col_filter, IH.
  destruct (filter (labelled n) (columns df)) as [|p ps]; simpl; [reflexivity|].
  destruct (forallb _ _); reflexivity.
Qed.

Lemma select_cols_length names df cs :
  select_cols names df = Some cs -> (length names <= length cs)%nat.
Proof.
  revert cs; induction names as [|n names IH]; intros cs H; simpl in H.
  - injection H as <-; reflexivity.
  - destruct (filter (labelled n) (columns df)) as [|p ps]; [discriminate|].
    destruct (select_cols names df) as [cs'|]; [|discriminate].
    injection H as <-; simpl; rewrite length_app.
    specialize (IH cs' eq_refl); lia.
Qed.

Lemma forallb_false_exists {A} (p : A -> bool) l :
  forallb p l = false -> exists x, In x l /\ p x = false.
Proof.
  induction l as [|a l IH]; simpl; [discriminate|].
  destruct (p a) eqn:E; simpl.
  - intros H; destruct (IH H) as [x [Hx Hp]]; exists x; split; [right|]; assumption.
  - intros _; exists a; split; [left; reflexivity|exact E].
Qed.

Lemma flat_map_labelled_in m c names cols :
  In (m, c) (flat_map (fun n => filter (labelled n) cols) names) ->
  In m names /\ In (m, c) cols.
Proof.
  intros H; apply in_flat_map in H; destruct H as [n [Hn H]].
  destruct (in_filter_labelled _ _ _ _ H) as [-> Hin]; split; assumption.
Qed.

Lemma flat_map_labelled_nodup names cols :
  NoDup (map fst cols) -> (forall n, In n names -> In n (map fst cols)) ->
  map fst (flat_map (fun n => filter (labelled n) cols) names) = names.
Proof.
  intros Hnd; induction names as [|n names IH]; intros Hall; simpl; [reflexivity|].
  assert (Hn : In n (map fst cols)) by (apply Hall; left; reflexivity).
  assert (E : filter (labelled n) cols = [(n, match get_col n cols with
                                                  | Some c => c | None => [] end)]).
  { clear IH Hall; induction cols as [|[m c] cols IHc]; [destruct Hn|].
    simpl in Hnd; inversion Hnd as [|? ? Hm Hnd']; subst.
    cbn [filter get_col]; change (labelled n (m, c)) with (String.eqb m n).
    destruct (String.eqb_spec m n) as [->|Hne].
    - rewrite filter_labelled_absent by exact Hm; reflexivity.
    - destruct Hn as [E|Hn]; [contradiction|exact (IHc Hnd' Hn)]. }
  rewrite E; simpl; rewrite IH; [reflexivity|].
  intros n' Hn'; apply Hall; right; exact Hn'.
Qed.

Lemma process_frame_fields df f :
  fields_truthy (Some f) = true ->
  process_frame df (Some f) =
  match process_frame df None with
  | Some full => select (split_comma (join_fields f)) full
  | None => None
  end.
Proof.
  intros Hf; unfold process_frame.
  destruct (drop_cols _ _) as [df1|]; [|reflexivity].
  destruct (set_price df1) as [df2|]; [|reflexivity].
  cbv beta iota; rewrite Hf; reflexivity.
Qed.

Lemma process_frame_index df fields out :
  process_frame df fields = Some out -> index out = index df.
Proof.
  unfold process_frame.
  destruct (drop_cols _ _) as [df1|] eqn:Ed; [|discriminate].
  destruct (set_price df1) as [df2|] eqn:Ep; [|discriminate].
  destruct (drop_cols_some _ _ _ Ed) as [_ ->].
  assert (Hi : index df2 = index df) by (rewrite (set_price_index _ _ Ep); reflexivity).
  destruct fields as [f|]; [destruct (fields_truthy (Some f))|].
  - unfold select; destruct (select_cols _ _); [|discriminate].
    intros H; injection H as <-; exact Hi.
  - intros H; injection H as <-; exact Hi.
  - intros H; injection H as <-; exact Hi.
Qed.

Lemma process_frame_price df fields out :
  fields_truthy fields = false -> process_frame df fields = Some out ->
  get_col "price" (columns out) = get_col "close_price" (columns out) /\
  get_col "price" (columns out) <> None.
Proof.
  intros Hf; unfold process_frame.
  destruct (drop_cols _ _) as [df1|]; [|discriminate].
  destruct (set_price df1) as [df2|] eqn:Ep; [|discriminate].
  assert (H : forall out', Some df2 = Some out' ->
    get_col "price" (columns out') = get_col "close_price" (columns out') /\
    get_col "price" (columns out') <> None).
  { intros out' H; injection H as <-; exact (set_price_price _ _ Ep). }
  destruct fields as [f|]; [rewrite Hf|]; apply H.
Qed.

(** X8: the single-symbol path needs exactly this of the provider's
    table: columns labelled [Dividends] and [Stock Splits] (else [df.drop]
    raises KeyError), and either exactly one column that becomes
    [close_price] ([Close], or one already so labelled), or several, with
    as many columns labelled [price] (none is a KeyError of
    [df['close_price']]; several are a frame, which pandas assigns to
    [df['price']] only over that many existing [price] columns).  Without
    it every call fails, whatever [fields]; with it the call without
    [fields] returns a table. *)
Theorem get_pricing_provider_columns history now (s start_date : string)
    (end_date : option string) (frequency : string) :
  let L := map fst (columns (history (SymStr s) start_date
              (end_date_or_now now end_date) (interval_of frequency))) in
  (forall fields,
     get_pricing history now (SymStr s) start_date end_date frequency fields <> None ->
     provider_ok L) /\
  (provider_ok L ->
   get_pricing history now (SymStr s) start_date end_date frequency None <> None).
Proof.
  intros L; split.
  - intros fields H.
    destruct (get_pricing history now (SymStr s) start_date end_date frequency fields)
      as [out|] eqn:E; [|contradiction].
    exact (process_frame_needs _ _ _ E).
  - intros H; exact (process_frame_enough _ H).
Qed.

(** X9: with non-empty [fields], a single-symbol call returns the table it
    returns without [fields], projected on the names [fields] gives after
    [''.join(fields).split(',')].  It raises KeyError exactly when one of
    the names labels no column of that table.  Otherwise it keeps the same
    rows and takes, name after name, every column with that label.  When
    the table's labels are distinct, that is exactly those names as
    columns in that order, each the column of that name. *)
Theorem get_pricing_fields_select history now (s start_date : string)
    (end_date : option string) (frequency : string) (f : Fields)
    (Hf : fields_truthy (Some f) = true) :
  get_pricing history now (SymStr s) start_date end_date frequency (Some f) =
  match get_pricing history now (SymStr s) start_date end_date frequency None with
  | Some full => select (split_comma (join_fields f)) full
  | None => None
  end /\
  (forall full,
     get_pricing history now (SymStr s) start_date end_date frequency None = Some full ->
     (get_pricing history now (SymStr s) start_date end_date frequency (Some f) = None <->
      exists n, In n (split_comma (join_fields f)) /\ ~ In n (map fst (columns full))) /\
     (forall out,
        get_pricing history now (SymStr s) start_date end_date frequency (Some f) =
          Some out ->
        index out = index full /\
        columns out = flat_map (fun n => filter (labelled n) (columns full))
                        (split_comma (join_fields f)) /\
        (NoDup (map fst (columns full)) ->
         map fst (columns out) = split_comma (join_fields f) /\
         (forall n c, In (n, c) (columns out) -> get_col n (columns full) = Some c)))).
Proof.
  assert (E : get_pricing history now (SymStr s) start_date end_date frequency (Some f) =
    match get_pricing history now (SymStr s) start_date end_date frequency None with
    | Some full => select (split_comma (join_fields f)) full
    | None => None
    end) by (apply process_frame_fields; exact Hf).
  split; [exact E|].
  intros full Hfull; rewrite E, Hfull; unfold select; rewrite select_cols_eq.
  destruct (forallb (has_col (columns full)) _) eqn:Eb; split.
  - split; [discriminate|].
    intros [n [Hn Hnot]]; exfalso; apply Hnot, has_col_in.
    rewrite forallb_forall in Eb; exact (Eb n Hn).
  - intros out Hout; injection Hout as <-; cbn [index columns].
    split; [reflexivity|split; [reflexivity|]].
    intros Hnd; rewrite forallb_forall in Eb; split.
    + apply flat_map_labelled_nodup; [exact Hnd|].
      intros n Hn; apply has_col_in, Eb, Hn.
    + intros n c Hin; destruct (flat_map_labelled_in _ _ _ _ Hin) as [_ Hc].
      exact (get_col_nodup _ _ _ Hnd Hc).
  - split; [intros _|reflexivity].
    destruct (forallb_false_exists _ _ Eb) as [n [Hn Hh]].
    exists n; split; [exact Hn|].
    intros H; apply has_col_in in H; congruence.
  - intros out Hout; discriminate.
Qed.

Lemma get_pricing_fields_select_witness :
  fields_truthy (Some (FStr "price,open_price")) = true /\
  (get_pricing sample_history "now" (SymStr "A") "1900-01-01" None "daily"
     (Some (FStr "price,open_price")) =
   match get_pricing sample_history "now" (SymStr "A") "1900-01-01" None "daily" None with
   | Some full => select (split_comma (join_fields (FStr "price,open_price"))) full
   | None => None
   end /\
   (forall full,
      get_pricing sample_history "now" (SymStr "A") "1900-01-01" None "daily" None =
        Some full ->
      (get_pricing sample_history "now" (SymStr "A") "1900-01-01" None "daily"
         (Some (FStr "price,open_price")) = None <->
       exists n, In n (split_comma (join_fields (FStr "price,open_price"))) /\
         ~ In n (map fst (columns full))) /\
      (forall out,
         get_pricing sample_history "now" (SymStr "A") "1900-01-01" None "daily"
           (Some (FStr "price,open_price")) = Some out ->
         index out = index full /\
         columns out = flat_map (fun n => filter (labelled n) (columns full))
                         (split_comma (join_fields (FStr "price,open_price"))) /\
         (NoDup (map fst (columns full)) ->
          map fst (columns out) = split_comma (join_fields (FStr "price,open_price")) /\
          (forall n c, In (n, c) (columns out) -> get_col n (columns full) = Some c))))).
Proof.
  assert (Hf : fields_truthy (Some (FStr "price,open_price")) = true) by reflexivity.
  split; [exact Hf|].
  exact (get_pricing_fields_select sample_history "now" "A" "1900-01-01" None "daily"
           (FStr "price,open_price") Hf).
Defined.

(** X10: a single-symbol call that returns keeps every row of the
    provider's table, in order; without [fields] its [price] column is
    its [close_price] column. *)
Theorem get_pricing_keeps_rows history now (s start_date : string)
    (end_date : option string) (frequency : string) (fields : option Fields)
    (out : Frame)
    (Hrun : get_pricing history now (SymStr s) start_date end_date frequency fields =
            Some out) :
  index out = index (history (SymStr s) start_date (end_date_or_now now end_date)
                       (interval_of frequency)) /\
  (fields_truthy fields = false ->
   get_col "price" (columns out) = get_col "close_price" (columns out) /\
   get_col "price" (columns out) <> None).
Proof.
  split; [exact (process_frame_index _ _ _ Hrun)|].
  intros Hf; exact (process_frame_price _ _ _ Hf Hrun).
Qed.

Lemma get_pricing_keeps_rows_witness :
  exists out,
    get_pricing sample_history "now" (SymStr "A") "1900-01-01" None "daily" None = Some out /\
    index out = [1; 2; 3]%Z /\
    (index out = index (sample_history (SymStr "A") "1900-01-01"
                          (end_date_or_now "now" None) (interval_of "daily")) /\
     (fields_truthy None = false ->
      get_col "price" (columns out) = get_col "close_price" (columns out) /\
      get_col "price" (columns out) <> None)).
Proof.
  eexists; split; [reflexivity|split; [reflexivity|]].
  apply (get_pricing_keeps_rows sample_history "now" "A" "1900-01-01" None "daily" None).
  reflexivity.
Defined.

Section MultiSymbol.

Variable history : PySym -> string -> string -> string -> Frame.
Variables (now start_date : string) (end_date : option string) (frequency : string).
Variable f : Fields.

Lemma assemble_none items acc s :
  In s items ->
  symbol_series history now start_date end_date frequency f s = None ->
  assemble history now start_date end_date frequency f acc items = None.
Proof.
  revert acc; induction items as [|it rest IH]; intros acc Hin Hs; [destruct Hin|].
  simpl; destruct Hin as [<-|Hin]; [rewrite Hs; reflexivity|].
  destruct (symbol_series history now start_date end_date frequency f it); [|reflexivity].
  destruct (frame_setitem acc it p); [|reflexivity].
  exact (IH _ Hin Hs).
Qed.

End MultiSymbol.

Lemma getitem_fields_many df names :
  (2 <= length names)%nat -> getitem_fields df (FList names) = None.
Proof.
  intros Hl; simpl.
  destruct (select_cols names df) as [cs|] eqn:Es; [|reflexivity].
  pose proof (select_cols_length _ _ _ Es) as Hc.
  destruct cs as [|[n c] [|p cs]]; simpl in Hc; [reflexivity|lia|reflexivity].
Qed.

Lemma fst_combine_same {A B} (l1 : list A) (l2 : list B) :
  length l1 = length l2 -> map fst (combine l1 l2) = l1.
Proof.
  revert l2; induction l1 as [|a l1 IH]; intros [|b l2] H; simpl in *;
    try discriminate; [reflexivity|].
  rewrite IH by lia; reflexivity.
Qed.

Lemma snd_combine_same {A B} (l1 : list A) (l2 : list B) :
  length l1 = length l2 -> map snd (combine l1 l2) = l2.
Proof.
  revert l2; induction l1 as [|a l1 IH]; intros [|b l2] H; simpl in *;
    try discriminate; [reflexivity|].
  rewrite IH by lia; reflexivity.
Qed.

Lemma map_nth_seq_self {A} (l : list A) d :
  map (fun k => nth k l d) (seq 0 (length l)) = l.
Proof.
  induction l as [|a l IH]; [reflexivity|].
  simpl; rewrite <- seq_shift, map_map; simpl; rewrite IH; reflexivity.
Qed.

Lemma filter_all_true {A} (p : A -> bool) l :
  (forall x, In x l -> p x = true) -> filter p l = l.
Proof.
  induction l as [|a l IH]; intros H; simpl; [reflexivity|].
  rewrite (H a (or_introl eq_refl)), IH; [reflexivity|].
  intros x Hx; exact (H x (or_intror Hx)).
Qed.

(** [dropna] of a frame whose columns are all complete and as long as its
    index is that frame. *)
Lemma dropna_full df :
  (forall m c, In (m, c) (columns df) ->
     length c = length (index df) /\ forall k, (k < length c)%nat -> nth k c None <> None) ->
  dropna df = df.
Proof.
  intros H; unfold dropna.
  rewrite (filter_all_true (row_ok df)).
  - rewrite map_nth_seq_self; destruct df as [idx cols]; simpl; f_equal.
    rewrite <- (map_id cols) at 2; apply map_ext_in.
    intros [m c] Hin; simpl.
    destruct (H m c Hin) as [Hl _]; simpl in Hl.
    rewrite <- Hl, map_nth_seq_self; reflexivity.
  - intros k Hk; apply in_seq in Hk.
    unfold row_ok; apply forallb_forall; intros [m c] Hin.
    destruct (H m c Hin) as [Hl Hs]; simpl.
    destruct (nth k c None) eqn:E; [reflexivity|].
    exfalso; apply (Hs k); [lia|exact E].
Qed.

Lemma setitem_aligned acc item idx (vs : list Q) :
  index acc = idx -> length vs = length idx ->
  frame_setitem acc item (combine idx (map Some vs)) =
  Some (set_col item (map Some vs) acc).
Proof.
  intros Hi Hl.
  assert (Hl' : length idx = length (map Some vs)) by (rewrite length_map; lia).
  unfold frame_setitem; cbv zeta.
  match goal with
  | |- context [is_empty (index acc) && ?b] =>
      replace (is_empty (index acc) && b) with false
        by (rewrite Hi; destruct idx; [reflexivity|];
            destruct vs; [discriminate|reflexivity])
  end.
  rewrite fst_combine_same by exact Hl'.
  destruct (list_eq_dec Z.eq_dec idx (index acc)) as [_|Hne]; [|congruence].
  rewrite snd_combine_same by exact Hl'; reflexivity.
Qed.

Lemma setitem_first item idx (vs : list Q) :
  length vs = length idx ->
  frame_setitem (mkFrame [] []) item (combine idx (map Some vs)) =
  Some (set_col item (map Some vs) (mkFrame idx [])).
Proof.
  intros Hl; destruct idx as [|t idx].
  - apply setitem_aligned; [reflexivity|exact Hl].
  - assert (Hl' : length (t :: idx) = length (map Some vs))
      by (rewrite length_map; lia).
    unfold frame_setitem; cbv zeta.
    match goal with
    | |- context [is_empty (index (mkFrame [] [])) && ?b] =>
        replace (is_empty (index (mkFrame [] [])) && b) with true
          by (destruct vs; [discriminate|reflexivity])
    end.
    cbv iota beta; cbn [index columns].
    rewrite (fst_combine_same (t :: idx)) by exact Hl'.
    destruct (list_eq_dec Z.eq_dec (t :: idx) (t :: idx)) as [_|Hne]; [|congruence].
    rewrite (snd_combine_same (t :: idx)) by exact Hl'; reflexivity.
Qed.

Section Aligned.

Variable history : PySym -> string -> string -> string -> Frame.
Variables (now start_date : string) (end_date : option string) (frequency : string).
Variable f : Fields.
Variable idx : list Z.

Let SS := symbol_series history now start_date end_date frequency f.

Let Good (m : string) (c : list Cell) : Prop :=
  exists vs, length vs = length idx /\ SS m = Some (combine idx (map Some vs)) /\
             c = map Some vs.

Lemma assemble_aligned items acc :
  index acc = idx ->
  (forall m c, In (m, c) (columns acc) -> Good m c) ->
  (forall s, In s items -> exists vs, length vs = length idx /\
                                      SS s = Some (combine idx (map Some vs))) ->
  exists df,
    assemble history now start_date end_date frequency f acc items = Some df /\
    index df = idx /\ (forall m c, In (m, c) (columns df) -> Good m c) /\
    map fst (columns df) = fold_left add_key items (map fst (columns acc)).
Proof.
  revert acc; induction items as [|it rest IH]; intros acc Hi Hg Hall; simpl.
  - exists acc; split; [reflexivity|split; [exact Hi|split; [exact Hg|reflexivity]]].
  - destruct (Hall it (or_introl eq_refl)) as [vs [Hl Hs]].
    unfold SS in Hs; rewrite Hs, (setitem_aligned _ _ _ _ Hi Hl).
    destruct (IH (set_col it (map Some vs) acc)) as [df [Hrun [Hi' [Hg' Hk]]]].
    + rewrite set_col_index; exact Hi.
    + intros m c Hin; destruct (set_col_in _ _ _ _ _ Hin) as [[-> ->]|Hin'].
      * exists vs; split; [exact Hl|split; [exact Hs|reflexivity]].
      * exact (Hg _ _ Hin').
    + intros s Hin; exact (Hall s (or_intror Hin)).
    + exists df; split; [exact Hrun|split; [exact Hi'|split; [exact Hg'|]]].
      rewrite Hk, set_col_keys; reflexivity.
Qed.

End Aligned.

Lemma las_append (a b : string) :
  list_ascii_of_string (String.append a b) =
  list_ascii_of_string a ++ list_ascii_of_string b.
Proof. induction a as [|c a IH]; simpl; [reflexivity|rewrite IH; reflexivity]. Qed.

(** The pieces of [s.split(',')] hold no comma. *)
Lemma split_comma_from_nocomma s cur :
  ~ In ","%char (list_ascii_of_string cur) ->
  forall n, In n (split_comma_from s cur) -> ~ In ","%char (list_ascii_of_string n).
Proof.
  revert cur; induction s as [|c s IH]; intros cur Hcur n Hn; simpl in Hn.
  - destruct Hn as [<-|[]]; exact Hcur.
  - destruct (Ascii.eqb c ","%char) eqn:Ec.
    + destruct Hn as [<-|Hn]; [exact Hcur|].
      exact (IH "" (fun H => H) n Hn).
    + refine (IH _ _ n Hn).
      rewrite las_append; simpl; intros H; apply in_app_or in H.
      destruct H as [H|[H|[]]]; [exact (Hcur H)|].
      subst c; discriminate.
Qed.

Lemma comma_not_piece s :
  In ","%char (list_ascii_of_string s) -> ~ In s (split_comma s).
Proof.
  intros Hs Hin; exact (split_comma_from_nocomma s "" (fun H => H) s Hin Hs).
Qed.

Lemma symbol_series_comma history now start_date end_date frequency s item :
  In ","%char (list_ascii_of_string s) ->
  symbol_series history now start_date end_date frequency (FStr s) item = None.
Proof.
  intros Hs.
  assert (Hf : fields_truthy (Some (FStr s)) = true).
  { simpl; destruct s; [destruct Hs|reflexivity]. }
  unfold symbol_series, fetch; rewrite (process_frame_fields _ _ Hf).
  destruct (process_frame _ None) as [full|]; [|reflexivity].
  unfold select; rewrite select_cols_eq.
  destruct (forallb _ _); [|reflexivity]; cbn [getitem_fields columns].
  rewrite df_col_absent; [reflexivity|].
  intros Hin; apply in_fst_iff in Hin; destruct Hin as [c Hin].
  destruct (flat_map_labelled_in _ _ _ _ Hin) as [Hp _].
  exact (comma_not_piece s Hs Hp).
Qed.

(** X11: in the multi-symbol path one failing symbol fails the call: when
    [get_pricing(item, ..., fields)[fields]] raises for some item of the
    list, so does the whole call, wherever the item stands. *)
Theorem get_pricing_multi_symbol_fails history now (syms : list string)
    (start_date : string) (end_date : option string) (frequency : string)
    (f : Fields) (s : string)
    (Hf : fields_truthy (Some f) = true) (Hin : In s syms)
    (Hs : symbol_series history now start_date end_date frequency f s = None) :
  get_pricing history now (SymList syms) start_date end_date frequency (Some f) = None.
Proof.
  unfold get_pricing; rewrite Hf.
  rewrite (assemble_none history now start_date end_date frequency f syms _ s Hin Hs).
  reflexivity.
Qed.

Lemma get_pricing_multi_symbol_fails_witness :
  fields_truthy (Some (FStr "price")) = true /\ In "C" ["B"; "C"] /\
  symbol_series sample_history "now" "1900-01-01" None "daily" (FStr "price") "C" =
    Some [] /\
  symbol_series sample_history "now" "1900-01-01" None "daily" (FStr "nope") "A" = None /\
  get_pricing sample_history "now" (SymList ["B"; "A"]) "1900-01-01" None "daily"
    (Some (FStr "nope")) = None.
Proof.
  split; [reflexivity|split; [right; left; reflexivity|split; [reflexivity|]]].
  assert (Hs : symbol_series sample_history "now" "1900-01-01" None "daily"
                 (FStr "nope") "A" = None) by reflexivity.
  split; [exact Hs|].
  apply (get_pricing_multi_symbol_fails sample_history "now" ["B"; "A"] "1900-01-01"
           None "daily" (FStr "nope") "A").
  - reflexivity.
  - right; left; reflexivity.
  - exact Hs.
Defined.

(** X12: the multi-symbol path can return one field only: with a list of
    two or more names, or with a string holding a comma, every
    [get_pricing(item, ...)[fields]] raises (a frame of several columns
    cannot be assigned to one column; the comma-separated string is not a
    column of the frame its pieces select), so the call fails for any
    non-empty list of symbols. *)
Theorem get_pricing_multi_one_field history now (syms : list string)
    (start_date : string) (end_date : option string) (frequency : string)
    (Hne : syms <> []) :
  (forall names, (2 <= length names)%nat ->
     get_pricing history now (SymList syms) start_date end_date frequency
       (Some (FList names)) = None) /\
  (forall s, In ","%char (list_ascii_of_string s) ->
     get_pricing history now (SymList syms) start_date end_date frequency
       (Some (FStr s)) = None).
Proof.
  destruct syms as [|s0 rest]; [contradiction|].
  split.
  - intros names Hl; unfold get_pricing.
    replace (fields_truthy (Some (FList names))) with true
      by (simpl; destruct names; [simpl in Hl; lia|reflexivity]).
    rewrite (assemble_none history now start_date end_date frequency _ (s0 :: rest) _ s0
               (or_introl eq_refl)); [reflexivity|].
    unfold symbol_series.
    destruct (fetch _ _ _ _ _ _ _) as [sub|]; [|reflexivity].
    exact (getitem_fields_many sub names Hl).
  - intros s Hs; unfold get_pricing.
    replace (fields_truthy (Some (FStr s))) with true
      by (simpl; destruct s; [destruct Hs|reflexivity]).
    rewrite (assemble_none history now start_date end_date frequency _ (s0 :: rest) _ s0
               (or_introl eq_refl)); [reflexivity|].
    exact (symbol_series_comma _ _ _ _ _ _ _ Hs).
Qed.

Lemma get_pricing_multi_one_field_witness :
  ["B"] <> [] /\
  (get_pricing sample_history "now" (SymList ["B"]) "1900-01-01" None "daily"
     (Some (FStr "price")) <> None) /\
  ((forall names, (2 <= length names)%nat ->
      get_pricing sample_history "now" (SymList ["B"]) "1900-01-01" None "daily"
        (Some (FList names)) = None) /\
   (forall s, In ","%char (list_ascii_of_string s) ->
      get_pricing sample_history "now" (SymList ["B"]) "1900-01-01" None "daily"
        (Some (FStr s)) = None)).
Proof.
  split; [discriminate|split; [discriminate|]].
  apply get_pricing_multi_one_field; discriminate.
Defined.

(** X13: when every symbol of a non-empty list gives a complete series on
    the same timestamps [idx], the multi-symbol call returns a frame indexed
    by [idx] ([dropna] drops no row), with one column per distinct symbol,
    in first-appearance order, holding that symbol's values. *)
Theorem get_pricing_multi_aligned history now (syms : list string)
    (start_date : string) (end_date : option string) (frequency : string)
    (f : Fields) (idx : list Z)
    (Hf : fields_truthy (Some f) = true) (Hne : syms <> [])
    (Hall : forall s, In s syms -> exists vs, length vs = length idx /\
       symbol_series history now start_date end_date frequency f s =
         Some (combine idx (map Some vs))) :
  exists df,
    get_pricing history now (SymList syms) start_date end_date frequency (Some f) =
      Some df /\
    index df = idx /\
    map fst (columns df) = dedup_keys syms /\
    (forall m c, In (m, c) (columns df) ->
       exists vs, length vs = length idx /\
         symbol_series history now start_date end_date frequency f m =
           Some (combine idx (map Some vs)) /\
         c = map Some vs).
Proof.
  destruct syms as [|s0 rest]; [contradiction|].
  destruct (Hall s0 (or_introl eq_refl)) as [vs0 [Hl0 Hs0]].
  unfold get_pricing; rewrite Hf; cbn [assemble].
  rewrite Hs0, (setitem_first s0 idx vs0 Hl0).
  destruct (assemble_aligned history now start_date end_date frequency f idx rest
              (set_col s0 (map Some vs0) (mkFrame idx [])))
    as [df [Hrun [Hi [Hg Hk]]]].
  - rewrite set_col_index; reflexivity.
  - intros m c Hin; destruct (set_col_in _ _ _ _ _ Hin) as [[-> ->]|[]].
    exists vs0; split; [exact Hl0|split; [exact Hs0|reflexivity]].
  - intros s Hin; exact (Hall s (or_intror Hin)).
  - rewrite Hrun.
    assert (Hd : dropna df = df).
    { apply dropna_full; intros m c Hin.
      destruct (Hg m c Hin) as [vs [Hl [_ ->]]].
      rewrite length_map, Hi; split; [exact Hl|].
      intros k Hlt.
      rewrite (nth_indep _ None (Some 0)) by (rewrite length_map; exact Hlt).
      rewrite map_nth; discriminate. }
    exists (dropna df); rewrite Hd.
    split; [reflexivity|split; [exact Hi|split; [|exact Hg]]].
    rewrite Hk, set_col_keys; reflexivity.
Qed.

Lemma get_pricing_multi_aligned_witness :
  exists df,
    get_pricing sample_history "now" (SymList ["B"; "B"]) "1900-01-01" None "daily"
      (Some (FStr "price")) = Some df /\
    index df = [2; 3; 4]%Z /\
    map fst (columns df) = dedup_keys ["B"; "B"] /\
    (forall m c, In (m, c) (columns df) ->
       exists vs, length vs = length [2; 3; 4]%Z /\
         symbol_series sample_history "now" "1900-01-01" None "daily" (FStr "price") m =
           Some (combine [2; 3; 4]%Z (map Some vs)) /\
         c = map Some vs).
Proof.
  apply (get_pricing_multi_aligned sample_history "now" ["B"; "B"] "1900-01-01" None
           "daily" (FStr "price") [2; 3; 4]%Z).
  - reflexivity.
  - discriminate.
  - intros s [<-|[<-|[]]]; exists [20; 25; 40]; split; reflexivity.
Defined.

Lemma string_app_assoc (a b c : string) :
  String.append (String.append a b) c = String.append a (String.append b c).
Proof. induction a as [|x a IH]; simpl; [reflexivity|rewrite IH; reflexivity]. Qed.

Lemma string_app_nil_r (a : string) : String.append a "" = a.
Proof. induction a as [|x a IH]; simpl; [reflexivity|rewrite IH; reflexivity]. Qed.

Lemma split_comma_from_app a rest cur :
  ~ In ","%char (list_ascii_of_string a) ->
  split_comma_from (String.append a rest) cur =
  split_comma_from rest (String.append cur a).
Proof.
  revert cur; induction a as [|x a IH]; intros cur Ha; simpl.
  - rewrite string_app_nil_r; reflexivity.
  - destruct (Ascii.eqb_spec x ","%char) as [->|Hx]; [exfalso; apply Ha; left; reflexivity|].
    rewrite IH by (intros H; apply Ha; right; exact H).
    rewrite string_app_assoc; reflexivity.
Qed.

(** X14: [s.split(',')] undoes [','.join(names)]: a non-empty list of
    names none of which holds a comma comes back unchanged, so [fields]
    given as ['a,b,c'] selects exactly the columns [a], [b], [c]. *)
Theorem split_comma_concat (names : list string)
    (Hne : names <> [])
    (Hnc : Forall (fun n => ~ In ","%char (list_ascii_of_string n)) names) :
  split_comma (String.concat "," names) = names.
Proof.
  unfold split_comma.
  assert (H : forall cur, split_comma_from (String.concat "," names) cur =
                match names with
                | [] => [cur]
                | n :: rest => String.append cur n :: rest
                end).
  { clear Hne; induction Hnc as [|n ns Hn Hns IH]; intros cur; [reflexivity|].
    destruct ns as [|m ns].
    - simpl String.concat; rewrite <- (string_app_nil_r n) at 1.
      rewrite (split_comma_from_app n "" cur Hn); reflexivity.
    - change (String.concat "," (n :: m :: ns))
        with (String.append n (String "," (String.concat "," (m :: ns)))).
      rewrite (split_comma_from_app n _ cur Hn); simpl split_comma_from at 1.
      rewrite IH; reflexivity. }
  rewrite H; destruct names as [|n rest]; [contradiction|reflexivity].
Qed.

Lemma split_comma_concat_witness :
  ["price"; "volume"] <> [] /\
  Forall (fun n => ~ In ","%char (list_ascii_of_string n)) ["price"; "volume"] /\
  split_comma "price,volume" = ["price"; "volume"].
Proof.
  assert (Hnc : Forall (fun n => ~ In ","%char (list_ascii_of_string n))
                  ["price"; "volume"]).
  { repeat constructor; simpl; intros H;
      repeat (destruct H as [H|H]; [discriminate H|]); exact H. }
  split; [discriminate|split; [exact Hnc|]].
  exact (split_comma_concat ["price"; "volume"] ltac:(discriminate) Hnc).
Defined.
